(** * wllama [src/utils.ts]: the parallel, cache-aware resource loader

    A shallow embedding of [getBinarySize], [_loadBinaryResource],
    [sumArr] and [loadBinaryResource] (with its inner [runDownloadThread]).

    JavaScript runs the code on one thread: an [async] function runs
    without interruption up to its next [await], and the browser then
    delivers one event at a time (a header arriving, a progress tick, a
    load, an error, a cache operation finishing).  The embedding is the
    corresponding transition system: [loadBinaryResource] computes the state
    reached by the synchronous prefix of the call, and [step] runs the
    handler of one event to its next suspension point.  The state is the
    frame of the call (its variables, the promises it awaits, the cache) and
    a trace of what it has done. *)

From Stdlib Require Import ZArith Lia.
From Stdlib.Strings Require Import Ascii String Byte.
From stdpp Require Import gmap strings list sorting.

Local Open Scope Z_scope.

(** ** JavaScript numbers

    Only the part of [number] the loader meets: integers and [NaN].  The
    numbers come from [parseInt] and from the counts of progress events, so
    fractions do not arise; integers are kept exact (a double is exact up to
    2^53, and a digit string long enough to overflow to [Infinity] is out of
    the model's range). *)

Inductive number :=
  | NaN
  | Num (z : Z).

(** [a + b] on numbers. *)
Definition plus (a b : number) : number :=
  match a, b with
  | Num x, Num y => Num (x + y)
  | _, _ => NaN
  end.


(** [export const sumArr = (arr) => arr.reduce((prev, curr) => prev + curr, 0)] *)
Definition sumArr (arr : list number) : number :=
  fold_left (fun prev curr => plus prev curr) arr (Num 0).

(** ** The two ECMAScript built-ins [getBinarySize] calls

    [+value] (ToNumber on a string, the StringNumericLiteral grammar) and
    [parseInt(value)] without a radix.  Header values are byte strings, so
    the white space that can occur is TAB, LF, VT, FF, CR, SP and NBSP. *)

Module JS.

Definition code (c : ascii) : N := N_of_ascii c.

Definition is_space (c : ascii) : bool :=
  let n := code c in
  ((9 <=? n) && (n <=? 13) || (n =? 32) || (n =? 160))%N.

Definition is_digit (c : ascii) : bool :=
  let n := code c in ((48 <=? n) && (n <=? 57))%N.

(** Value of [c] as a digit of the given radix, if it is one. *)
Definition digit_val (radix : N) (c : ascii) : option Z :=
  let n := code c in
  let v :=
    if ((48 <=? n) && (n <=? 57))%N then Some (n - 48)%N
    else if ((97 <=? n) && (n <=? 122))%N then Some (n - 87)%N
    else if ((65 <=? n) && (n <=? 90))%N then Some (n - 55)%N
    else None in
  match v with
  | Some d => if (d <? radix)%N then Some (Z.of_N d) else None
  | None => None
  end.

Definition is_radix_digit (radix : N) (c : ascii) : bool :=
  match digit_val radix c with Some _ => true | None => false end.

Fixpoint drop_spaces (s : list ascii) : list ascii :=
  match s with
  | c :: s' => if is_space c then drop_spaces s' else s
  | [] => []
  end.

(** [String.prototype.trim]: white space removed at both ends. *)
Definition trim (s : list ascii) : list ascii :=
  rev (drop_spaces (rev (drop_spaces s))).

(** Longest prefix of [s] satisfying [p], and the rest. *)
Fixpoint span (p : ascii -> bool) (s : list ascii) : list ascii * list ascii :=
  match s with
  | c :: s' =>
      if p c then let '(a, b) := span p s' in (c :: a, b) else ([], s)
  | [] => ([], [])
  end.

Definition nonempty (s : list ascii) : bool :=
  match s with [] => false | _ => true end.

Definition all_digits (radix : N) (s : list ascii) : bool :=
  nonempty s && forallb (is_radix_digit radix) s.

(** ExponentPart_opt followed by the end of the string. *)
Definition exponent_opt (s : list ascii) : bool :=
  match s with
  | [] => true
  | c :: s' =>
      if (code c =? 101)%N || (code c =? 69)%N then (* e E *)
        match s' with
        | d :: s'' =>
            if (code d =? 43)%N || (code d =? 45)%N
            then all_digits 10 s'' else all_digits 10 s'
        | [] => false
        end
      else false
  end.

(** StrUnsignedDecimalLiteral. *)
Definition unsigned_decimal (s : list ascii) : bool :=
  if decide (s = list_ascii_of_string "Infinity") then true
  else
    let '(int_part, rest) := span is_digit s in
    match rest with
    | c :: rest' =>
        if (code c =? 46)%N then (* . *)
          let '(frac_part, rest'') := span is_digit rest' in
          (nonempty int_part || nonempty frac_part) && exponent_opt rest''
        else nonempty int_part && exponent_opt rest
    | [] => nonempty int_part
    end.

(** NonDecimalIntegerLiteral: 0x, 0o or 0b and at least one digit, unsigned. *)
Definition non_decimal (s : list ascii) : bool :=
  match s with
  | z :: p :: ds =>
      if (code z =? 48)%N then
        let n := code p in
        if (n =? 120)%N || (n =? 88)%N then all_digits 16 ds
        else if (n =? 111)%N || (n =? 79)%N then all_digits 8 ds
        else if (n =? 98)%N || (n =? 66)%N then all_digits 2 ds
        else false
      else false
  | _ => false
  end.

(** Does the string match StringNumericLiteral?  ToNumber is [NaN] exactly
    when it does not (an empty or all-blank string converts to 0). *)
Definition numeric_literal (s : list ascii) : bool :=
  let t := trim s in
  match t with
  | [] => true
  | c :: t' =>
      non_decimal t
      || (if (code c =? 43)%N || (code c =? 45)%N
          then unsigned_decimal t' else unsigned_decimal t)
  end.

(** [isNaN(+value)] for a string [value]. *)
Definition isNaN_of_string (value : string) : bool :=
  negb (numeric_literal (list_ascii_of_string value)).

(** Value of a digit string, most significant digit first. *)
Definition digits_value (radix : N) (ds : list ascii) : Z :=
  fold_left
    (fun acc c => acc * Z.of_N radix + default 0 (digit_val radix c)) ds 0.

(** [parseInt(value)] with no radix argument. *)
Definition parseInt (value : string) : number :=
  let s := drop_spaces (list_ascii_of_string value) in
  let '(sign, s1) :=
    match s with
    | c :: s' =>
        if (code c =? 45)%N then (-1, s')
        else if (code c =? 43)%N then (1, s') else (1, s)
    | [] => (1, s)
    end in
  let '(radix, s2) :=
    match s1 with
    | z :: x :: s' =>
        if (code z =? 48)%N && ((code x =? 120)%N || (code x =? 88)%N)
        then (16%N, s') else (10%N, s1)
    | _ => (10%N, s1)
    end in
  let '(ds, _) := span (is_radix_digit radix) s2 in
  match ds with
  | [] => NaN
  | _ => Num (sign * digits_value radix ds)
  end.

End JS.

(** ** Data model *)

Definition Uint8Array := list byte.

Inductive Error :=
  | ContentLengthNotANumber     (* new Error('Content-Length is not a number') *)
  | PlatformError (id : nat).   (* an error object made by the browser *)

(** How a promise ended. *)
Inductive Settled (A : Type) :=
  | Resolve (a : A)
  | Reject (e : Error).
Arguments Resolve {A} a.
Arguments Reject {A} e.

(** ** [getBinarySize]

    The request either reaches [readyState === 2], where
    [getResponseHeader('Content-Length')] is a string or [null], or fires
    [onerror]. *)

Inductive ProbeEvent :=
  | HeadersReceived (contentLength : option string)
  | ProbeError (err : nat).

Definition getBinarySize (ev : ProbeEvent) : Settled number :=
  match ev with
  | HeadersReceived header =>
      let value := default ""%string header in
      if JS.isNaN_of_string value
      then Reject ContentLengthNotANumber
      else Resolve (JS.parseInt value)
  | ProbeError err => Reject (PlatformError err)
  end.

(** ** [_loadBinaryResource]

    The points where one call can be suspended, the events that resume it,
    and what it does to the outside world. *)

Inductive Fetch :=
  | AwaitCache                         (* lines 12-13 *)
  | AwaitRequest                       (* line 47, request sent *)
  | AwaitPut (byteArray : Uint8Array)  (* line 33 *)
  | NeverSettles.                      (* [_promise] can no longer settle *)

Inductive FetchEvent :=
  | CacheMatched                       (* [open] and [match] have completed *)
  | CacheRejected (err : nat)          (* [open] or [match] rejected *)
  | OnProgress (loaded total : N)      (* [req.onprogress] *)
  | OnLoad (response : option Uint8Array)  (* [req.onload]; [req.response] *)
  | OnError (err : nat)                (* [req.onerror] *)
  | PutDone (ok : bool).               (* [cache.put] resolved or rejected *)

Inductive Effect :=
  | XhrSend (u : string)                    (* line 44 *)
  | CallProgress (loaded total : N)         (* the [progressCallback] runs *)
  | CachePut (u : string) (b : Uint8Array). (* line 33 *)

Inductive Next :=
  | Suspended (f : Fetch)
  | Returns (b : Uint8Array)
  | Throws (e : Error).

Abbreviation Caches := (option (gmap string Uint8Array)).

(** Lines 24-47: the request is created and sent, the call awaits it. *)
Definition download (u : string) : Fetch * list Effect :=
  (AwaitRequest, [XhrSend u]).

(** The call up to its first suspension.  [caches] is [window.caches]
    ([None] when the browser has none) holding the entries of
    ['wllama_cache']. *)
Definition _loadBinaryResource (caches : Caches) (u : string)
  : Fetch * list Effect :=
  match caches with
  | Some _ => (AwaitCache, [])
  | None => download u
  end.

(** One event delivered to a suspended call.  [progressCallback] tells
    whether the caller passed a function. *)
Definition _loadBinaryResource_resume (caches : Caches) (u : string)
    (progressCallback : bool) (f : Fetch) (ev : FetchEvent)
  : Next * list Effect * Caches :=
  match f, ev with
  | AwaitCache, CacheMatched =>
      match caches ≫= (λ c, c !! u) with
      | Some data => (Returns data, [], caches)
      | None => let '(f', effs) := download u in (Suspended f', effs, caches)
      end
  | AwaitCache, CacheRejected err => (Throws (PlatformError err), [], caches)
  | AwaitRequest, OnProgress loaded total =>
      (Suspended AwaitRequest,
       if progressCallback then [CallProgress loaded total] else [], caches)
  | AwaitRequest, OnLoad (Some byteArray) =>
      match caches with
      | Some _ => (Suspended (AwaitPut byteArray), [CachePut u byteArray], caches)
      | None => (Returns byteArray, [], caches)
      end
  | AwaitRequest, OnLoad None => (Suspended NeverSettles, [], caches)
  | AwaitRequest, OnError err => (Throws (PlatformError err), [], caches)
  | AwaitPut byteArray, PutDone true =>
      (Returns byteArray, [], (λ c, <[u := byteArray]> c) <$> caches)
  | AwaitPut byteArray, PutDone false => (Suspended NeverSettles, [], caches)
  | _, _ => (Suspended f, [], caches)
  end.

(** ** [loadBinaryResource] *)

Record Task := mkTask {
  url : string;
  result : Uint8Array;
  started : bool;
  sizeTotal : number;
  sizeLoaded : number;
}.

(** [url: string | string[]] *)
Inductive UrlArg :=
  | OneUrl (u : string)
  | UrlList (us : list string).

(** [Uint8Array | Uint8Array[]] *)
Inductive Value :=
  | Single (b : Uint8Array)
  | Many (bs : list Uint8Array).

(** One of the promises in [threads]. *)
Inductive Thread :=
  | Awaiting (task : nat) (f : Fetch)  (* suspended at line 127 on [tasks[task]] *)
  | Returned                           (* line 125 *)
  | Threw (e : Error).                 (* the [await] of line 127 threw *)

(** Where [loadBinaryResource] itself stands. *)
Inductive Call :=
  | AwaitSizes       (* line 116 *)
  | AwaitThreads     (* line 144 *)
  | Resolved (v : Value)
  | Rejected (e : Error).

(** The trace of a run, oldest first: the claims, the requests sent, the
    stores started, the calls of the caller's progress callback and the
    results assigned. *)
Inductive Obs :=
  | Claimed (thread task : nat)              (* line 126 *)
  | Sent (task : nat)                        (* line 44 for [tasks[task].url] *)
  | Stored (task : nat)                      (* line 33 *)
  | Progress (loaded total : number)         (* line 132 *)
  | Fetched (task : nat) (b : Uint8Array).   (* line 127, [task.result = ...] *)

Record State := mkState {
  nMaxParallel : Z;
  reportProgress : bool;
  tasks : list Task;
  totalSize : number;
  sizeArr : list (option number);   (* the promises of line 116 *)
  threads : list Thread;
  caches : Caches;
  call : Call;
  log : list Obs;
}.

Definition with_tasks (ts : list Task) (st : State) : State :=
  mkState (nMaxParallel st) (reportProgress st) ts (totalSize st)
    (sizeArr st) (threads st) (caches st) (call st) (log st).
Definition with_totalSize (n : number) (st : State) : State :=
  mkState (nMaxParallel st) (reportProgress st) (tasks st) n
    (sizeArr st) (threads st) (caches st) (call st) (log st).
Definition with_sizeArr (l : list (option number)) (st : State) : State :=
  mkState (nMaxParallel st) (reportProgress st) (tasks st) (totalSize st)
    l (threads st) (caches st) (call st) (log st).
Definition with_threads (l : list Thread) (st : State) : State :=
  mkState (nMaxParallel st) (reportProgress st) (tasks st) (totalSize st)
    (sizeArr st) l (caches st) (call st) (log st).
Definition with_caches (c : Caches) (st : State) : State :=
  mkState (nMaxParallel st) (reportProgress st) (tasks st) (totalSize st)
    (sizeArr st) (threads st) c (call st) (log st).
Definition with_call (c : Call) (st : State) : State :=
  mkState (nMaxParallel st) (reportProgress st) (tasks st) (totalSize st)
    (sizeArr st) (threads st) (caches st) c (log st).
Definition emit (o : Obs) (st : State) : State :=
  mkState (nMaxParallel st) (reportProgress st) (tasks st) (totalSize st)
    (sizeArr st) (threads st) (caches st) (call st) (log st ++ [o]).

Definition set_started (t : Task) : Task :=
  mkTask (url t) (result t) true (sizeTotal t) (sizeLoaded t).
Definition set_result (b : Uint8Array) (t : Task) : Task :=
  mkTask (url t) b (started t) (sizeTotal t) (sizeLoaded t).
Definition set_progress (loaded total : N) (t : Task) : Task :=
  mkTask (url t) (result t) (started t)
    (Num (Z.of_N total)) (Num (Z.of_N loaded)).

(** Lines 105-111. *)
Definition new_task (u : string) : Task :=
  mkTask u [] false (Num 0) (Num 0).

(** Lines 146-148. *)
Definition final_value (ts : list Task) : Value :=
  match ts with
  | [t] => Single (result t)
  | _ => Many (map result ts)
  end.

(** What [tasks.find(t => !t.started)] finds, as an index into [tasks]. *)
Definition find_unstarted (ts : list Task) : option nat :=
  fst <$> list_find (λ t, started t = false) ts.

(** One effect of the fetch of [tasks[i]], as the thread sees it.  For a
    call of the progress closure these are lines 128-136. *)
Definition perform (i : nat) (st : State) (eff : Effect) : State :=
  match eff with
  | XhrSend _ => emit (Sent i) st
  | CachePut _ _ => emit (Stored i) st
  | CallProgress loaded total =>
      let ts := alter (set_progress loaded total) i (tasks st) in
      let st' := with_tasks ts st in
      if reportProgress st
      then emit (Progress (sumArr (map sizeLoaded ts)) (totalSize st)) st'
      else st'
  end.

(** The loop of [runDownloadThread] from its head to the next suspension:
    lines 124-127 up to the first [await] inside [_loadBinaryResource].
    [w] is the position of the thread in [threads]. *)
Definition runDownloadThread (w : nat) (st : State) : State * Thread :=
  match find_unstarted (tasks st) with
  | None => (st, Returned)
  | Some i =>
      match tasks st !! i with
      | Some task =>
          let st1 :=
            emit (Claimed w i) (with_tasks (alter set_started i (tasks st)) st) in
          let '(f, effs) := _loadBinaryResource (caches st1) (url task) in
          (fold_left (perform i) effs st1, Awaiting i f)
      | None => (st, Returned)
      end
  end.

Definition is_returned (t : Thread) : bool :=
  match t with Returned => true | _ => false end.

(** [await Promise.all(threads)] once every thread has returned, and the
    [return] of lines 146-148. *)
Definition join (st : State) : State :=
  match call st with
  | AwaitThreads =>
      if forallb is_returned (threads st)
      then with_call (Resolved (final_value (tasks st))) st
      else st
  | _ => st
  end.

(** [await Promise.all(threads)] when a thread has just thrown [e]. *)
Definition fail (e : Error) (st : State) : State :=
  match call st with
  | AwaitThreads => with_call (Rejected e) st
  | _ => st
  end.

(** Lines 140-142. *)
Fixpoint spawn_loop (n : nat) (st : State) : State :=
  match n with
  | O => st
  | S n' =>
      let '(st', thread) := runDownloadThread (length (threads st)) st in
      spawn_loop n' (with_threads (threads st' ++ [thread]) st')
  end.

(** Lines 120-148, entered once [totalSize] is known. *)
Definition spawn (st : State) : State :=
  join (spawn_loop (Z.to_nat (nMaxParallel st)) (with_call AwaitThreads st)).

(** [await Promise.all(...)] of line 116 when every size has arrived, and
    line 117. *)
Definition sizes_ready (st : State) : State :=
  match mapM id (sizeArr st) with
  | Some sizes => spawn (with_totalSize (sumArr sizes) st)
  | None => st
  end.

Definition urls_of (arg : UrlArg) : list string :=
  match arg with
  | OneUrl u => [u]
  | UrlList us => us
  end.

(** The call up to its first suspension.  [progressCallback] tells whether
    the caller passed a function ([reportProgress], line 94). *)
Definition loadBinaryResource (arg : UrlArg) (nMax : Z)
    (progressCallback : bool) (cache0 : Caches) : State :=
  let urls := urls_of arg in
  let st :=
    mkState nMax progressCallback (map new_task urls) (Num (-1)) []
      [] cache0 AwaitSizes [] in
  if progressCallback
  then sizes_ready (with_sizeArr (map (λ _, None) urls) st)
  else spawn st.

Inductive Event :=
  | OnProbe (i : nat) (pe : ProbeEvent)   (* for [getBinarySize(urls[i])] *)
  | OnFetch (w : nat) (fe : FetchEvent).  (* for the fetch [threads[w]] awaits *)

Definition step_probe (i : nat) (pe : ProbeEvent) (st : State) : State :=
  match call st, sizeArr st !! i with
  | AwaitSizes, Some None =>
      match getBinarySize pe with
      | Reject e => with_call (Rejected e) st
      | Resolve size =>
          sizes_ready (with_sizeArr (<[i := Some size]> (sizeArr st)) st)
      end
  | _, _ => st
  end.

(** Thread [w] resumed after its [await] has returned: round the loop
    once more (lines 123-127), and line 144 if that was the last thread. *)
Definition resume_thread (w : nat) (st : State) : State :=
  let '(st', thread) := runDownloadThread w st in
  join (with_threads (<[w := thread]> (threads st')) st').

Definition step_fetch (w : nat) (fe : FetchEvent) (st : State) : State :=
  match threads st !! w with
  | Some (Awaiting i f) =>
      match tasks st !! i with
      | Some task =>
          let '(next, effs, caches') :=
            _loadBinaryResource_resume (caches st) (url task) true f fe in
          let st1 := fold_left (perform i) effs (with_caches caches' st) in
          match next with
          | Suspended f' =>
              with_threads (<[w := Awaiting i f']> (threads st1)) st1
          | Returns b =>
              resume_thread w
                (emit (Fetched i b)
                   (with_tasks (alter (set_result b) i (tasks st1)) st1))
          | Throws e =>
              fail e (with_threads (<[w := Threw e]> (threads st1)) st1)
          end
      | None => st
      end
  | _ => st
  end.

(** The handler of one event, run to its next suspension point.  An event
    nothing is waiting for changes nothing. *)
Definition step (st : State) (ev : Event) : State :=
  match ev with
  | OnProbe i pe => step_probe i pe st
  | OnFetch w fe => step_fetch w fe st
  end.

Definition run (st : State) (evs : list Event) : State :=
  fold_left step evs st.

(** The calls of the aggregate progress callback, oldest first. *)
Definition progress_calls (l : list Obs) : list (number * number) :=
  omap (λ o, match o with Progress a b => Some (a, b) | _ => None end) l.

(** ** The transitions of the loader, one by one

    [step] and [loadBinaryResource] are compositions of a few kinds of
    elementary transition.  [trans] lists them with the state written out
    field by field; the invariants below are proved by case analysis on it.
    A transition is labelled [Tick i loaded total] when it is the progress
    closure of [tasks[i]] running, and [Quiet] otherwise. *)

Inductive Kind :=
  | Quiet
  | Tick (i : nat) (loaded total : N).

(** Where a fresh call of [_loadBinaryResource] first suspends, and what
    claiming [tasks[i]] from thread [w] adds to the log. *)
Definition start_fetch (c : Caches) : Fetch :=
  match c with Some _ => AwaitCache | None => AwaitRequest end.
Definition start_log (c : Caches) (w i : nat) : list Obs :=
  Claimed w i :: match c with Some _ => [] | None => [Sent i] end.

(** A suspended fetch of [tasks[i]] moving to another suspension point. *)
Inductive phase : nat → Fetch → Fetch → list Obs → Prop :=
  | phase_miss i : phase i AwaitCache AwaitRequest [Sent i]
  | phase_store i b : phase i AwaitRequest (AwaitPut b) [Stored i]
  | phase_no_body i : phase i AwaitRequest NeverSettles []
  | phase_put_failed i b : phase i (AwaitPut b) NeverSettles [].

(** The suspension points from which a fetch can return [b], and those
    from which it can throw. *)
Inductive returns : Fetch → Uint8Array → Prop :=
  | returns_hit b : returns AwaitCache b
  | returns_load b : returns AwaitRequest b
  | returns_put b : returns (AwaitPut b) b.

Inductive throws : Fetch → Prop :=
  | throws_cache : throws AwaitCache
  | throws_request : throws AwaitRequest.

Inductive trans : Kind → State → State → Prop :=
  | T_none st : trans Quiet st st
  | T_probe_reject (n : Z) (rp : bool) (ts : list Task) (tot : number)
      (sz : list (option number)) (ths : list Thread) (c : Caches)
      (lg : list Obs) (e : Error) :
      trans Quiet (mkState n rp ts tot sz ths c AwaitSizes lg)
                  (mkState n rp ts tot sz ths c (Rejected e) lg)
  | T_probe_size (n : Z) (rp : bool) (ts : list Task) (tot : number)
      (sz : list (option number)) (ths : list Thread) (c : Caches)
      (lg : list Obs) (i : nat) (size : number) :
      sz !! i = Some None →
      trans Quiet (mkState n rp ts tot sz ths c AwaitSizes lg)
                  (mkState n rp ts tot (<[i := Some size]> sz) ths c AwaitSizes lg)
  | T_begin (n : Z) (rp : bool) (ts : list Task) (tot tot' : number)
      (sz : list (option number)) (ths : list Thread) (c : Caches)
      (lg : list Obs) :
      (∃ sizes, mapM id sz = Some sizes ∧ tot' = sumArr sizes)
      ∨ (rp = false ∧ tot' = tot) →
      trans Quiet (mkState n rp ts tot sz ths c AwaitSizes lg)
                  (mkState n rp ts tot' sz ths c AwaitThreads lg)
  | T_spawn_claim (n : Z) (rp : bool) (ts : list Task) (tot : number)
      (sz : list (option number)) (ths : list Thread) (c : Caches)
      (lg : list Obs) (j : nat) (t : Task) :
      find_unstarted ts = Some j → ts !! j = Some t →
      trans Quiet (mkState n rp ts tot sz ths c AwaitThreads lg)
                  (mkState n rp (alter set_started j ts) tot sz
                     (ths ++ [Awaiting j (start_fetch c)]) c AwaitThreads
                     (lg ++ start_log c (length ths) j))
  | T_spawn_idle (n : Z) (rp : bool) (ts : list Task) (tot : number)
      (sz : list (option number)) (ths : list Thread) (c : Caches)
      (lg : list Obs) :
      find_unstarted ts = None →
      trans Quiet (mkState n rp ts tot sz ths c AwaitThreads lg)
                  (mkState n rp ts tot sz (ths ++ [Returned]) c AwaitThreads lg)
  | T_join (n : Z) (rp : bool) (ts : list Task) (tot : number)
      (sz : list (option number)) (ths : list Thread) (c : Caches)
      (lg : list Obs) :
      forallb is_returned ths = true →
      trans Quiet (mkState n rp ts tot sz ths c AwaitThreads lg)
                  (mkState n rp ts tot sz ths c (Resolved (final_value ts)) lg)
  | T_progress (n : Z) (rp : bool) (ts : list Task) (tot : number)
      (sz : list (option number)) (ths : list Thread) (c : Caches) (cl : Call)
      (lg : list Obs) (w i : nat) (t : Task) (loaded total : N) :
      ths !! w = Some (Awaiting i AwaitRequest) → ts !! i = Some t →
      trans (Tick i loaded total)
        (mkState n rp ts tot sz ths c cl lg)
        (mkState n rp (alter (set_progress loaded total) i ts) tot sz ths c cl
           (lg ++ if rp
                  then [Progress
                          (sumArr (map sizeLoaded
                                     (alter (set_progress loaded total) i ts)))
                          tot]
                  else []))
  | T_phase (n : Z) (rp : bool) (ts : list Task) (tot : number)
      (sz : list (option number)) (ths : list Thread) (c : Caches) (cl : Call)
      (lg : list Obs) (w i : nat) (t : Task) (f f' : Fetch) (obs : list Obs) :
      ths !! w = Some (Awaiting i f) → ts !! i = Some t → phase i f f' obs →
      trans Quiet (mkState n rp ts tot sz ths c cl lg)
                  (mkState n rp ts tot sz (<[w := Awaiting i f']> ths) c cl
                     (lg ++ obs))
  | T_next (n : Z) (rp : bool) (ts : list Task) (tot : number)
      (sz : list (option number)) (ths : list Thread) (c c' : Caches)
      (cl : Call) (lg : list Obs) (w i : nat) (t : Task) (f : Fetch)
      (b : Uint8Array) (j : nat) (t' : Task) :
      ths !! w = Some (Awaiting i f) → ts !! i = Some t → returns f b →
      find_unstarted (alter (set_result b) i ts) = Some j →
      alter (set_result b) i ts !! j = Some t' →
      trans Quiet (mkState n rp ts tot sz ths c cl lg)
                  (mkState n rp
                     (alter set_started j (alter (set_result b) i ts)) tot sz
                     (<[w := Awaiting j (start_fetch c')]> ths) c' cl
                     (lg ++ Fetched i b :: start_log c' w j))
  | T_last (n : Z) (rp : bool) (ts : list Task) (tot : number)
      (sz : list (option number)) (ths : list Thread) (c c' : Caches)
      (cl : Call) (lg : list Obs) (w i : nat) (t : Task) (f : Fetch)
      (b : Uint8Array) :
      ths !! w = Some (Awaiting i f) → ts !! i = Some t → returns f b →
      find_unstarted (alter (set_result b) i ts) = None →
      trans Quiet (mkState n rp ts tot sz ths c cl lg)
                  (mkState n rp (alter (set_result b) i ts) tot sz
                     (<[w := Returned]> ths) c' cl (lg ++ [Fetched i b]))
  | T_throw (n : Z) (rp : bool) (ts : list Task) (tot : number)
      (sz : list (option number)) (ths : list Thread) (c : Caches) (cl : Call)
      (lg : list Obs) (w i : nat) (t : Task) (f : Fetch) (e : Error) :
      ths !! w = Some (Awaiting i f) → ts !! i = Some t → throws f →
      trans Quiet (mkState n rp ts tot sz ths c cl lg)
                  (mkState n rp ts tot sz (<[w := Threw e]> ths) c cl lg)
  | T_fail (n : Z) (rp : bool) (ts : list Task) (tot : number)
      (sz : list (option number)) (ths : list Thread) (c : Caches)
      (lg : list Obs) (e : Error) :
      Threw e ∈ ths →
      trans Quiet (mkState n rp ts tot sz ths c AwaitThreads lg)
                  (mkState n rp ts tot sz ths c (Rejected e) lg).

Definition quiet : relation State := trans Quiet.
Definition moves : relation State := λ st st', ∃ k, trans k st st'.

(** The label of the transition an event causes. *)
Definition kind_of (st : State) (ev : Event) : Kind :=
  match ev with
  | OnFetch w (OnProgress loaded total) =>
      match threads st !! w with
      | Some (Awaiting i AwaitRequest) =>
          match tasks st !! i with
          | Some _ => Tick i loaded total
          | None => Quiet
          end
      | _ => Quiet
      end
  | _ => Quiet
  end.

(** The frame of [loadBinaryResource] before line 113 has run. *)
Definition entry (arg : UrlArg) (nMax : Z) (progressCallback : bool)
    (cache0 : Caches) : State :=
  mkState nMax progressCallback (map new_task (urls_of arg)) (Num (-1))
    (if progressCallback then map (λ _, None) (urls_of arg) else [])
    [] cache0 AwaitSizes [].


(** While the call still waits for the sizes, nothing has been claimed,
    sent or reported. *)
Definition unspawned (st : State) : Prop :=
  threads st = [] ∧ log st = []
  ∧ Forall (λ t, started t = false) (tasks st).

(** The tasks for which a request for the body was sent, oldest first. *)
Definition requests (l : list Obs) : list nat :=
  omap (λ o, match o with Sent i => Some i | _ => None end) l.

(** The frame after [p] rounds of the loop of lines 140-142, started with
    [n] unclaimed tasks: thread [w] holds task [w] as long as there are
    tasks, the later threads have returned. *)
Definition spawn_shape (c : Caches) (n p : nat) (st : State) : Prop :=
  length (threads st) = p ∧ length (tasks st) = n ∧ caches st = c
  ∧ (∀ w, (w < p)%nat →
       threads st !! w
       = Some (if decide (w < n)%nat
               then Awaiting w (start_fetch c) else Returned))
  ∧ (∀ i t, tasks st !! i = Some t → started t = bool_decide (i < p)%nat).

(** At any time the threads either have not been spawned yet or number
    [nMaxParallel] (none when that is zero or negative). *)
Definition spawn_count (st : State) : Prop :=
  (call st = AwaitSizes → unspawned st)
  ∧ (threads st = [] ∨ length (threads st) = Z.to_nat (nMaxParallel st))
  ∧ (∀ v, call st = Resolved v →
          length (threads st) = Z.to_nat (nMaxParallel st)).

(** The tasks claimed and the results assigned, oldest first. *)
Definition claimed (l : list Obs) : list nat :=
  omap (λ o, match o with Claimed _ i => Some i | _ => None end) l.
Definition fetched (l : list Obs) : list (nat * Uint8Array) :=
  omap (λ o, match o with Fetched i b => Some (i, b) | _ => None end) l.

(** Thread [w] is suspended in the fetch of [tasks[i]]. *)
Definition held (ths : list Thread) (w i : nat) : Prop :=
  ∃ f, ths !! w = Some (Awaiting i f).

Definition started_at (ts : list Task) (i : nat) : Prop :=
  ∃ t, ts !! i = Some t ∧ started t = true.

(** The claiming discipline: a task in a thread's hands is started and in
    no other thread's hands; the started tasks are those that were claimed,
    each once; a thread returns only when every task is started. *)
Record claim_inv (st : State) : Prop := {
  held_started : ∀ w i, held (threads st) w i → started_at (tasks st) i;
  held_once : ∀ w w' i,
    held (threads st) w i → held (threads st) w' i → w = w';
  claimed_once : NoDup (claimed (log st));
  claimed_started : ∀ i, i ∈ claimed (log st) ↔ started_at (tasks st) i;
  returned_last :
    Returned ∈ threads st → ∀ i t, tasks st !! i = Some t → started t = true;
}.

(** The buffers of a returned value, in order. *)
Definition buffers (v : Value) : list Uint8Array :=
  match v with
  | Single b => [b]
  | Many bs => bs
  end.

(** Where the results come from: a started task is in a thread's hands,
    or was in the hands of a thread that threw, or has been fetched; a
    fetched task holds the bytes its fetch returned and is in no thread's
    hands any more; the call resolves, with the results of that moment,
    only when every thread has returned. *)
Record result_inv (st : State) : Prop := {
  started_status : ∀ i,
    started_at (tasks st) i →
    (∃ w, held (threads st) w i) ∨ (∃ e, Threw e ∈ threads st)
    ∨ (∃ b, (i, b) ∈ fetched (log st));
  fetched_result : ∀ i b,
    (i, b) ∈ fetched (log st) →
    (∃ t, tasks st !! i = Some t ∧ result t = b ∧ started t = true)
    ∧ ∀ w, ¬ held (threads st) w i;
  resolved_joined : ∀ v,
    call st = Resolved v →
    Forall (λ th, th = Returned) (threads st) ∧ v = final_value (tasks st);
}.


(** The sizes are all known and [totalSize] is their sum. *)
Definition total_known (st : State) : Prop :=
  ∃ sizes, sizeArr st = Some <$> sizes ∧ totalSize st = sumArr sizes.

(** Progress reporting: no thread exists while the call waits for the
    sizes; with a callback the total is known as soon as threads may exist;
    without one the callback is never called; every call so far passed the
    total of the frame. *)
Record progress_inv (st : State) : Prop := {
  sizes_first : call st = AwaitSizes → threads st = [];
  total_fixed :
    reportProgress st = true →
    call st = AwaitThreads ∨ threads st ≠ [] → total_known st;
  silent : reportProgress st = false → progress_calls (log st) = [];
  same_total : ∀ a b,
    (a, b) ∈ progress_calls (log st) → b = totalSize st ∧ threads st ≠ [];
}.






(** Forgetting the totals the transport declares: in a task, in an
    effect of the fetcher and in an event. *)
Definition erase_task (t : Task) : Task :=
  mkTask (url t) (result t) (started t) (Num 0) (sizeLoaded t).
Definition erase (st : State) : State :=
  with_tasks (erase_task <$> tasks st) st.
Definition erase_effect (eff : Effect) : Effect :=
  match eff with
  | CallProgress loaded _ => CallProgress loaded 0
  | _ => eff
  end.
Definition erase_fetch_event (fe : FetchEvent) : FetchEvent :=
  match fe with
  | OnProgress loaded _ => OnProgress loaded 0
  | _ => fe
  end.
Definition erase_event (ev : Event) : Event :=
  match ev with
  | OnFetch w fe => OnFetch w (erase_fetch_event fe)
  | OnProbe _ _ => ev
  end.

(** Case analysis on a transition, the premises named after their shape. *)
Ltac inv_trans H :=
  inversion H; subst; simpl in *;
  try match goal with X : find_unstarted _ = _ |- _ => rename X into Hfind end;
  try match goal with
      | X : _ !! _ = Some (Awaiting _ _) |- _ => rename X into Hw
      end;
  try match goal with X : phase _ _ _ _ |- _ => rename X into Hph end;
  try match goal with X : returns _ _ |- _ => rename X into Hret end;
  try match goal with X : throws _ |- _ => rename X into Hthr end;
  try match goal with
      | X : forallb is_returned _ = true |- _ => rename X into Hall
      end;
  try match goal with
      | X : alter _ _ _ !! _ = Some _ |- _ => rename X into Hj
      end;
  try match goal with
      | X : ?l !! _ = Some ?t |- _ => is_var t; is_var l; rename X into Hi
      end.

(** ** [joinBuffers] and [padDigits]

    Both can throw: [TypedArray.prototype.set] and [Array(n)] raise a
    [RangeError] out of range, and [set] raises a [TypeError] when its source
    is [undefined]. *)

Inductive Exception :=
  | TypeError
  | RangeError.

Inductive Completion (A : Type) :=
  | Normal (a : A)
  | Throw (e : Exception).
Arguments Normal {A} a.
Arguments Throw {A} e.

Definition and_then {A B} (c : Completion A) (k : A → Completion B)
  : Completion B :=
  match c with
  | Normal a => k a
  | Throw e => Throw e
  end.

(** [output.set(source, offset)]: [source] is copied over [output] from
    [offset] on; a [RangeError] if it does not fit. *)
Definition Uint8Array_set (source : Uint8Array) (offset : nat) (output : Uint8Array)
  : Completion Uint8Array :=
  if decide (offset + length source ≤ length output)%nat
  then Normal (take offset output ++ source
               ++ drop (offset + length source) output)
  else Throw RangeError.

(** Lines 79-81: the loop, [prev] being [buffers[i - 1]] and [rest] the
    buffers from [buffers[i]] on. *)
Fixpoint joinBuffers_loop (prev : Uint8Array) (rest : list Uint8Array)
    (output : Uint8Array) : Completion Uint8Array :=
  match rest with
  | [] => Normal output
  | buf :: rest' =>
      and_then (Uint8Array_set buf (length prev) output) (joinBuffers_loop buf rest')
  end.

(** Lines 75-83.  [new Uint8Array(totalSize)] is filled with zeros;
    [buffers[0]] of an empty array is [undefined]. *)
Definition joinBuffers (buffers : list Uint8Array) : Completion Uint8Array :=
  let totalSize := fold_left (λ acc buf, acc + length buf)%nat buffers 0%nat in
  let output := replicate totalSize x00 in
  match buffers with
  | [] => Throw TypeError
  | first :: rest =>
      and_then (Uint8Array_set first 0 output) (joinBuffers_loop first rest)
  end.







(** Every byte of [output] from position [m] on is zero. *)
Definition zero_from (m : nat) (output : Uint8Array) : Prop :=
  ∀ p, (m ≤ p < length output)%nat → output !! p = Some x00.

(** No write of the loop reaches beyond position [bound]. *)
Fixpoint writes_within (bound : nat) (prev : Uint8Array)
    (rest : list Uint8Array) : Prop :=
  match rest with
  | [] => True
  | buf :: rest' =>
      (length prev + length buf ≤ bound)%nat ∧ writes_within bound buf rest'
  end.

(** The tasks whose downloaded bytes were handed to [cache.put], oldest
    first. *)
Definition stores (l : list Obs) : list nat :=
  omap (λ o, match o with Stored i => Some i | _ => None end) l.

(** The traffic of a run: a task is requested at most once and stored at
    most once, requested only after it was claimed and stored only after it
    was requested; while a thread waits for the cache lookup of its task no
    request for it has gone out, and while it waits for the request the
    task has been requested and not yet stored. *)
Record request_inv (st : State) : Prop := {
  requests_once : NoDup (requests (log st));
  stores_once : NoDup (stores (log st));
  requests_claimed : ∀ i, i ∈ requests (log st) → i ∈ claimed (log st);
  stores_requested : ∀ i, i ∈ stores (log st) → i ∈ requests (log st);
  lookup_unsent : ∀ w i,
    threads st !! w = Some (Awaiting i AwaitCache) → i ∉ requests (log st);
  request_unstored : ∀ w i,
    threads st !! w = Some (Awaiting i AwaitRequest) →
    i ∈ requests (log st) ∧ i ∉ stores (log st);
}.

(** The results: a task is assigned a result at most once, only after it
    was claimed, and until then it holds the empty buffer it was created
    with. *)
Record assign_inv (st : State) : Prop := {
  fetched_once : NoDup (fetched (log st)).*1;
  fetched_claimed : ∀ i, i ∈ (fetched (log st)).*1 → i ∈ claimed (log st);
  unfetched_empty : ∀ i t,
    tasks st !! i = Some t → i ∉ (fetched (log st)).*1 → result t = [];
}.

(** The tasks whose fetch is under way: those in the hands of a suspended
    thread, in the order of the threads. *)
Definition in_flight (ths : list Thread) : list nat :=
  omap (λ th, match th with Awaiting i _ => Some i | _ => None end) ths.

(** The call does not wait at line 144 once every thread has returned. *)
Definition pending_inv (st : State) : Prop :=
  call st = AwaitThreads → forallb is_returned (threads st) = false.

(** A task for which no request has gone out has received no progress
    event: its counts are the zeros it was created with. *)
Definition unrequested_idle (st : State) : Prop :=
  ∀ i t,
    tasks st !! i = Some t → i ∉ requests (log st) →
    sizeLoaded t = Num 0 ∧ sizeTotal t = Num 0.

(** * Properties *)

(** ** The model at work *)

Section Examples.

Example isNaN_of_string_examples :
  JS.isNaN_of_string "" = false ∧ JS.isNaN_of_string "abc" = true
  ∧ JS.isNaN_of_string " 1e3 " = false ∧ JS.isNaN_of_string "-0x10" = true
  ∧ JS.isNaN_of_string "12, 12" = true ∧ JS.isNaN_of_string "." = true
  ∧ JS.isNaN_of_string "Infinity" = false.
Proof. by vm_compute. Qed.

Example parseInt_examples :
  JS.parseInt "1024" = Num 1024 ∧ JS.parseInt "" = NaN
  ∧ JS.parseInt "1e3" = Num 1 ∧ JS.parseInt "0x1F" = Num 31
  ∧ JS.parseInt " -42px" = Num (-42) ∧ JS.parseInt "Infinity" = NaN.
Proof. by vm_compute. Qed.

(** Three parts of 10, 20 and 30 bytes, two threads, nothing cached:
    the total is 60, [a] and [b] are claimed at once, [c] by the thread that
    finishes first; the results come back in input order and the last call
    of the callback reports 60 of 60. *)
Example three_parts_two_threads :
  let bytes (n : Z) := replicate (Z.to_nat n) x00 in
  let st0 := loadBinaryResource (UrlList ["a"; "b"; "c"]%string) 2 true None in
  let st1 :=
    run st0
      [OnProbe 0 (HeadersReceived (Some "10"%string));
       OnProbe 1 (HeadersReceived (Some "20"%string));
       OnProbe 2 (HeadersReceived (Some "30"%string))] in
  let st2 :=
    run st1
      [OnFetch 0 (OnProgress 10 10); OnFetch 0 (OnLoad (Some (bytes 10)));
       OnFetch 1 (OnProgress 20 20); OnFetch 1 (OnLoad (Some (bytes 20)));
       OnFetch 0 (OnProgress 30 30); OnFetch 0 (OnLoad (Some (bytes 30)))] in
  totalSize st1 = Num 60
  ∧ threads st1 = [Awaiting 0 AwaitRequest; Awaiting 1 AwaitRequest]
  ∧ claimed (log st2) = [0; 1; 2]%nat
  ∧ call st2 = Resolved (Many [bytes 10; bytes 20; bytes 30])
  ∧ last (progress_calls (log st2)) = Some (Num 60, Num 60).
Proof. by vm_compute. Qed.

(** A part found in the cache is returned without a request and without
    a call of the callback, so the bytes it brings are never counted in
    [loaded]. *)
Example cached_part_is_not_counted :
  let st :=
    run (loadBinaryResource (OneUrl "x") 5 true
           (Some {[ "x"%string := [x01; x02]%byte ]}))
      [OnProbe 0 (HeadersReceived (Some "2"%string));
       OnFetch 0 CacheMatched] in
  call st = Resolved (Single [x01; x02]%byte)
  ∧ threads st = [Returned; Returned; Returned; Returned; Returned]
  ∧ requests (log st) = [] ∧ progress_calls (log st) = []
  ∧ map sizeLoaded (tasks st) = [Num 0].
Proof. by vm_compute. Qed.

End Examples.

Section Refinement.

Lemma find_unstarted_Some ts j :
  find_unstarted ts = Some j →
  ∃ t, ts !! j = Some t ∧ started t = false
       ∧ ∀ k t', ts !! k = Some t' → (k < j)%nat → started t' = true.
Proof.
  unfold find_unstarted. intros H.
  destruct (list_find _ ts) as [[k t]|] eqn:E; simplify_eq/=.
  apply list_find_Some in E as (Hk & Hs & Hlt).
  exists t. split_and!; [done..|].
  intros k' t' Hk' Hlt'. specialize (Hlt _ _ Hk' Hlt').
  by destruct (started t').
Qed.

Lemma find_unstarted_None ts :
  find_unstarted ts = None → Forall (λ t, started t = true) ts.
Proof.
  unfold find_unstarted. intros H.
  destruct (list_find _ ts) as [[k t]|] eqn:E; simplify_eq/=.
  apply list_find_None in E. eapply Forall_impl; [done|].
  intros t Ht. simpl in Ht. by destruct (started t).
Qed.

Lemma runDownloadThread_claim w st j :
  find_unstarted (tasks st) = Some j →
  runDownloadThread w st =
    (mkState (nMaxParallel st) (reportProgress st)
       (alter set_started j (tasks st)) (totalSize st) (sizeArr st)
       (threads st) (caches st) (call st)
       (log st ++ start_log (caches st) w j),
     Awaiting j (start_fetch (caches st))).
Proof.
  intros H. unfold runDownloadThread. rewrite H.
  destruct (find_unstarted_Some _ _ H) as (t & Ht & _). rewrite Ht.
  destruct st as [n rp ts tot sz ths [c|] cl lg]; simpl in *;
    unfold emit; simpl; by rewrite <- ?app_assoc.
Qed.

Lemma runDownloadThread_idle w st :
  find_unstarted (tasks st) = None → runDownloadThread w st = (st, Returned).
Proof. intros H. unfold runDownloadThread. by rewrite H. Qed.

Lemma join_quiet st : rtc quiet st (join st).
Proof.
  unfold join. destruct st as [n rp ts tot sz ths c [] lg]; simpl; try done.
  destruct (forallb is_returned ths) eqn:E; [|done].
  apply rtc_once. by constructor.
Qed.

Lemma spawn_loop_quiet k st :
  call st = AwaitThreads →
  rtc quiet st (spawn_loop k st) ∧ call (spawn_loop k st) = AwaitThreads.
Proof.
  revert st. induction k as [|k IH]; intros st Hc; simpl; [done|].
  destruct (find_unstarted (tasks st)) as [j|] eqn:E.
  - rewrite (runDownloadThread_claim _ _ _ E).
    destruct (find_unstarted_Some _ _ E) as (t & Ht & _).
    destruct st as [n rp ts tot sz ths c cl lg]; simpl in *; subst cl.
    unfold with_threads; simpl.
    edestruct IH as [H1 H2]; [|split; [|exact H2]]; [done|].
    eapply rtc_l; [|exact H1]. by econstructor.
  - rewrite (runDownloadThread_idle _ _ E).
    destruct st as [n rp ts tot sz ths c cl lg]; simpl in *; subst cl.
    unfold with_threads; simpl.
    edestruct IH as [H1 H2]; [|split; [|exact H2]]; [done|].
    eapply rtc_l; [|exact H1]. by econstructor.
Qed.

Lemma spawn_quiet st tot' :
  call st = AwaitSizes →
  (∃ sizes, mapM id (sizeArr st) = Some sizes ∧ tot' = sumArr sizes)
  ∨ (reportProgress st = false ∧ tot' = totalSize st) →
  rtc quiet st (spawn (with_totalSize tot' st)).
Proof.
  intros Hc Ht. unfold spawn.
  destruct st as [n rp ts tot sz ths c cl lg]; simpl in *; subst cl.
  eapply rtc_l; [by apply T_begin, Ht|].
  unfold with_totalSize, with_call; simpl.
  set (st1 := mkState _ _ _ _ _ _ _ _ _).
  destruct (spawn_loop_quiet (Z.to_nat n) st1) as [H1 H2]; [done|].
  etrans; [exact H1|]. apply join_quiet.
Qed.

Lemma sizes_ready_quiet st :
  call st = AwaitSizes → rtc quiet st (sizes_ready st).
Proof.
  intros Hc. unfold sizes_ready.
  destruct (mapM id (sizeArr st)) as [sizes|] eqn:E; [|done].
  apply spawn_quiet; [done|]. left. eauto.
Qed.

Lemma loadBinaryResource_quiet arg nMax cb cache :
  rtc quiet (entry arg nMax cb cache) (loadBinaryResource arg nMax cb cache).
Proof.
  unfold loadBinaryResource, entry. destruct cb.
  - by apply sizes_ready_quiet.
  - set (st := mkState _ _ _ _ _ _ _ _ _).
    change (spawn st) with (spawn (with_totalSize (totalSize st) st)).
    apply spawn_quiet; [done|]. by right.
Qed.

Lemma step_probe_quiet i pe st : rtc quiet st (step_probe i pe st).
Proof.
  unfold step_probe.
  destruct (call st) eqn:Hc; try done.
  destruct (sizeArr st !! i) as [[|]|] eqn:Hi; try done.
  destruct (getBinarySize pe) as [size|e].
  - eapply rtc_l; [|apply sizes_ready_quiet; by destruct st].
    destruct st as [n rp ts tot sz ths c cl lg]; simpl in *; subst cl.
    by constructor.
  - apply rtc_once.
    destruct st as [n rp ts tot sz ths c cl lg]; simpl in *; subst cl.
    by constructor.
Qed.

Lemma fail_quiet e st : Threw e ∈ threads st → rtc quiet st (fail e st).
Proof.
  intros H. unfold fail.
  destruct st as [n rp ts tot sz ths c [] lg]; simpl in *; try done.
  apply rtc_once. by constructor.
Qed.

Lemma returns_quiet n rp ts tot sz ths c c' cl lg w i t f b :
  ths !! w = Some (Awaiting i f) → ts !! i = Some t → returns f b →
  rtc quiet (mkState n rp ts tot sz ths c cl lg)
    (resume_thread w
       (emit (Fetched i b)
          (with_tasks (alter (set_result b) i ts)
             (mkState n rp ts tot sz ths c' cl lg)))).
Proof.
  intros Hw Hi Hr. unfold resume_thread.
  set (st2 := emit _ _).
  destruct (find_unstarted (tasks st2)) as [j|] eqn:E.
  - rewrite (runDownloadThread_claim _ _ _ E).
    destruct (find_unstarted_Some _ _ E) as (t' & Ht' & _).
    eapply rtc_l; [|apply join_quiet].
    simpl in *. unfold with_threads; simpl. rewrite <- app_assoc. simpl.
    by eapply T_next.
  - rewrite (runDownloadThread_idle _ _ E).
    eapply rtc_l; [|apply join_quiet].
    simpl in *. unfold with_threads; simpl. by eapply T_last.
Qed.

Lemma throws_quiet n rp ts tot sz ths c cl lg w i t f e :
  ths !! w = Some (Awaiting i f) → ts !! i = Some t → throws f →
  rtc quiet (mkState n rp ts tot sz ths c cl lg)
    (fail e (with_threads (<[w := Threw e]> ths)
               (mkState n rp ts tot sz ths c cl lg))).
Proof.
  intros Hw Hi Hf.
  eapply rtc_l; [by eapply T_throw|]. apply fail_quiet. simpl.
  apply list_elem_of_lookup. exists w.
  apply list_lookup_insert_eq. by eapply lookup_lt_Some.
Qed.

Lemma step_fetch_spec w fe st :
  match kind_of st (OnFetch w fe) with
  | Tick i loaded total => trans (Tick i loaded total) st (step_fetch w fe st)
  | Quiet => rtc quiet st (step_fetch w fe st)
  end.
Proof.
  unfold kind_of, step_fetch.
  destruct st as [n rp ts tot sz ths c cl lg]; simpl.
  destruct (ths !! w) as [[i f| |e]|] eqn:Hw;
    try (destruct fe; done).
  destruct (ts !! i) as [t|] eqn:Hi;
    [|destruct fe; try done; destruct f; done].
  assert (Hid : <[w := Awaiting i f]> ths = ths) by by apply list_insert_id.
  destruct f, fe as [|err|loaded total|[b|]|err|[]]; simpl;
    unfold with_threads, with_caches; simpl; rewrite ?Hid;
    try done;
    try (by eapply throws_quiet; [..|constructor]);
    try (by eapply returns_quiet; [..|constructor]).
  - (* cache lookup *)
    destruct c as [c|]; simpl.
    + destruct (c !! url t) as [data|] eqn:Hc; simpl.
      * by eapply returns_quiet; [..|constructor].
      * apply rtc_once. unfold emit; simpl.
        eapply T_phase; [done..|constructor].
    + apply rtc_once. unfold emit; simpl.
      eapply T_phase; [done..|constructor].
  - (* progress *)
    unfold perform; simpl. destruct rp; unfold emit, with_tasks; simpl;
      rewrite Hid.
    + by eapply (T_progress _ true).
    + rewrite <- (app_nil_r lg) at 2. by eapply (T_progress _ false).
  - (* load *)
    destruct c as [c|]; simpl.
    + apply rtc_once. unfold emit; simpl.
      eapply T_phase; [done..|constructor].
    + by eapply returns_quiet; [..|constructor].
  - apply rtc_once. rewrite <- (app_nil_r lg) at 2.
    eapply T_phase; [done..|constructor].
  - apply rtc_once. rewrite <- (app_nil_r lg) at 2.
    eapply T_phase; [done..|constructor].
Qed.

Lemma step_spec st ev :
  match kind_of st ev with
  | Tick i loaded total => trans (Tick i loaded total) st (step st ev)
  | Quiet => rtc quiet st (step st ev)
  end.
Proof.
  destruct ev as [i pe|w fe]; [apply step_probe_quiet|apply step_fetch_spec].
Qed.

Lemma quiet_moves st st' : rtc quiet st st' → rtc moves st st'.
Proof. apply rtc_subrel. intros ???. by exists Quiet. Qed.

Lemma step_moves st ev : rtc moves st (step st ev).
Proof.
  pose proof (step_spec st ev) as H.
  destruct (kind_of st ev); [by apply quiet_moves|].
  apply rtc_once. by eexists.
Qed.

Lemma run_moves st evs : rtc moves st (run st evs).
Proof.
  revert st. induction evs as [|ev evs IH]; intros st; simpl; [done|].
  etrans; [apply step_moves|apply IH].
Qed.

(** Every state a call can be in is reached from [entry] by transitions
    of [trans]; an invariant of [trans] holds throughout every run. *)
Lemma reachable_moves arg nMax cb cache evs :
  rtc moves (entry arg nMax cb cache)
    (run (loadBinaryResource arg nMax cb cache) evs).
Proof.
  etrans; [apply quiet_moves, loadBinaryResource_quiet|apply run_moves].
Qed.

Lemma invariant_moves (P : State → Prop) st st' :
  (∀ k s s', trans k s s' → P s → P s') → rtc moves st st' → P st → P st'.
Proof.
  intros HP H. induction H as [|s1 s2 s3 [k Hk] _ IH]; [done|].
  intros H1. apply IH. by eapply HP.
Qed.

End Refinement.

(** ** The size probe *)

Section SizeProbe.










Lemma trans_unspawned k st st' :
  trans k st st' →
  (call st = AwaitSizes → unspawned st) →
  (call st' = AwaitSizes → unspawned st').
Proof.
  unfold unspawned.
  inversion 1; subst; simpl in *; try done; intros Hst Hc;
    destruct (Hst Hc) as (? & ? & ?); by simplify_eq.
Qed.

Lemma reachable_unspawned arg nMax cb cache evs :
  let st := run (loadBinaryResource arg nMax cb cache) evs in
  call st = AwaitSizes → unspawned st.
Proof.
  eapply (invariant_moves (λ st, call st = AwaitSizes → unspawned st));
    [apply trans_unspawned|apply reachable_moves|].
  intros _. unfold unspawned, entry; simpl. split_and!; [done..|].
  apply Forall_fmap. by apply Forall_true.
Qed.






(** An absent header is read as the empty string, which converts to 0:
    the probe resolves, with [NaN]. *)
Example getBinarySize_absent_header :
  getBinarySize (HeadersReceived None) = Resolve NaN.
Proof. reflexivity. Qed.

Example getBinarySize_total_with_absent_header :
  let st :=
    run (loadBinaryResource (UrlList ["a"; "b"]%string) 2 true None)
      [OnProbe 0 (HeadersReceived (Some "10"%string));
       OnProbe 1 (HeadersReceived None)] in
  totalSize st = NaN ∧ call st = AwaitThreads.
Proof. by vm_compute. Qed.

End SizeProbe.

(** ** The single-part fetcher *)

Section Fetcher.

Lemma join_fields st :
  tasks (join st) = tasks st ∧ threads (join st) = threads st
  ∧ log (join st) = log st ∧ caches (join st) = caches st.
Proof. unfold join. by repeat case_match. Qed.

Lemma fail_fields e st :
  tasks (fail e st) = tasks st ∧ threads (fail e st) = threads st
  ∧ log (fail e st) = log st ∧ caches (fail e st) = caches st.
Proof. unfold fail. by repeat case_match. Qed.

Lemma resume_thread_fields w st :
  tasks (resume_thread w st)
  = match find_unstarted (tasks st) with
    | Some j => alter set_started j (tasks st)
    | None => tasks st
    end
  ∧ log (resume_thread w st)
    = log st ++ match find_unstarted (tasks st) with
                | Some j => start_log (caches st) w j
                | None => []
                end
  ∧ threads (resume_thread w st)
    = <[w := match find_unstarted (tasks st) with
             | Some j => Awaiting j (start_fetch (caches st))
             | None => Returned
             end]> (threads st)
  ∧ caches (resume_thread w st) = caches st.
Proof.
  unfold resume_thread.
  destruct (find_unstarted (tasks st)) as [j|] eqn:E.
  - rewrite (runDownloadThread_claim _ _ _ E).
    set (s1 := with_threads _ _).
    by destruct (join_fields s1) as (-> & -> & -> & ->).
  - rewrite (runDownloadThread_idle _ _ E).
    set (s1 := with_threads _ _).
    destruct (join_fields s1) as (-> & -> & -> & ->).
    simpl. by rewrite app_nil_r.
Qed.

Lemma progress_calls_app l k :
  progress_calls (l ++ k) = progress_calls l ++ progress_calls k.
Proof. apply omap_app. Qed.

Lemma requests_app l k : requests (l ++ k) = requests l ++ requests k.
Proof. apply omap_app. Qed.

Lemma map_alter_same {B} (h : Task → B) (g : Task → Task) i (ts : list Task) :
  (∀ x, h (g x) = h x) → map h (alter g i ts) = map h ts.
Proof.
  intros Hg. revert i.
  induction ts as [|t ts IH]; intros [|i]; csimpl; f_equal; auto.
Qed.

Lemma lookup_result_alter (ts : list Task) i j t b (g : Task → Task) :
  ts !! i = Some t → (∀ x, result (g x) = result x) →
  ∃ t', alter g j (alter (set_result b) i ts) !! i = Some t'
        ∧ result t' = b.
Proof.
  intros Hi Hg. destruct (decide (j = i)) as [->|Hne].
  - rewrite !list_lookup_alter_eq, Hi. simpl. eexists. split; [done|].
    by rewrite Hg.
  - rewrite list_lookup_alter_ne, list_lookup_alter_eq, Hi by done.
    simpl. by eexists.
Qed.

(** C5.  When the cache holds bytes for the identifier, the fetcher sends
    no request and never calls the progress callback: it suspends on the
    cache lookup and returns the cached bytes when the lookup completes.
    Inside [loadBinaryResource], the thread waiting on that lookup stores
    the cached bytes as the task's result, and the step adds no progress
    call and no request to what has been observed. *)
Theorem C5_cache_hit (c : gmap string Uint8Array) (u : string)
    (data : Uint8Array) :
  c !! u = Some data →
  _loadBinaryResource (Some c) u = (AwaitCache, [])
  ∧ (∀ cb, _loadBinaryResource_resume (Some c) u cb AwaitCache CacheMatched
           = (Returns data, [], Some c))
  ∧ (∀ st w i t,
       caches st = Some c → threads st !! w = Some (Awaiting i AwaitCache) →
       tasks st !! i = Some t → url t = u →
       let st' := step st (OnFetch w CacheMatched) in
       (∃ t', tasks st' !! i = Some t' ∧ result t' = data)
       ∧ Fetched i data ∈ log st'
       ∧ progress_calls (log st') = progress_calls (log st)
       ∧ requests (log st') = requests (log st)
       ∧ map sizeLoaded (tasks st') = map sizeLoaded (tasks st)).
Proof.
  intros Hc. split_and!; [done|by intros; simpl; rewrite Hc|].
  intros st w i t Hcs Hw Hi <-. simpl. unfold step_fetch.
  rewrite Hw, Hi. simpl. rewrite Hcs. simpl. rewrite Hc. simpl.
  set (st2 := emit _ _).
  destruct (resume_thread_fields w st2) as (-> & -> & _).
  destruct (find_unstarted (tasks st2)) as [j|];
    destruct st as [n rp ts tot sz ths cs cl lg]; simpl in *; subst cs.
  all: split_and!.
  all: rewrite ?progress_calls_app, ?requests_app, ?map_alter_same by done.
  all: simpl; rewrite ?app_nil_r; try done.
  all: try (rewrite !elem_of_app, list_elem_of_singleton; by auto).
  - by eapply lookup_result_alter.
  - rewrite list_lookup_alter_eq, Hi. simpl. by eexists.
Qed.

Lemma C5_cache_hit_witness :
  let c : gmap string Uint8Array := {[ "x"%string := [x2a; x2b]%byte ]} in
  let st := loadBinaryResource (OneUrl "x") 1 false (Some c) in
  let st' := step st (OnFetch 0 CacheMatched) in
  c !! "x"%string = Some [x2a; x2b]%byte
  ∧ call st' = Resolved (Single [x2a; x2b]%byte)
  ∧ progress_calls (log st') = [] ∧ requests (log st') = [].
Proof.
  intros c st st'.
  assert (Hc : c !! "x"%string = Some [x2a; x2b]%byte) by by vm_compute.
  split; [exact Hc|].
  destruct (C5_cache_hit c "x" [x2a; x2b]%byte Hc) as (_ & _ & H).
  assert (H1 : caches st = Some c) by by vm_compute.
  assert (H2 : threads st !! 0%nat = Some (Awaiting 0 AwaitCache))
    by by vm_compute.
  assert (H3 : tasks st !! 0%nat = Some (mkTask "x" [] true (Num 0) (Num 0)))
    by by vm_compute.
  destruct (H st 0%nat 0%nat _ H1 H2 H3 eq_refl) as (_ & _ & Hp & Hr & _).
  split; [by vm_compute|].
  split; [exact Hp|exact Hr].
Defined.

(** ** Storing into the cache *)







End Fetcher.

(** ** Spawning the threads *)

Section Spawn.

Lemma find_unstarted_first ts p :
  (p < length ts)%nat →
  (∀ i t, ts !! i = Some t → started t = bool_decide (i < p)%nat) →
  find_unstarted ts = Some p.
Proof.
  intros Hp Hts. unfold find_unstarted.
  destruct (lookup_lt_is_Some_2 ts p Hp) as [t Ht].
  assert (list_find (λ t, started t = false) ts = Some (p, t)) as ->; [|done].
  apply list_find_Some. split_and!; [done|..].
  - rewrite (Hts _ _ Ht). apply bool_decide_eq_false. lia.
  - intros j y Hj Hlt. rewrite (Hts _ _ Hj).
    rewrite bool_decide_eq_true_2 by done. done.
Qed.

Lemma find_unstarted_all_started ts :
  (∀ i t, ts !! i = Some t → started t = true) → find_unstarted ts = None.
Proof.
  intros Hts. unfold find_unstarted.
  assert (list_find (λ t, started t = false) ts = None) as ->; [|done].
  apply list_find_None, Forall_lookup. intros i t Hi.
  by rewrite (Hts _ _ Hi).
Qed.

Lemma spawn_loop_shape c n k p st :
  spawn_shape c n p st → spawn_shape c n (p + k) (spawn_loop k st).
Proof.
  revert p st. induction k as [|k IH]; intros p st Hst; simpl.
  { by rewrite Nat.add_0_r. }
  replace (p + S k)%nat with (S p + k)%nat by lia.
  destruct Hst as (Hlen & Hn & Hc & Hths & Hts).
  destruct (decide (p < n)%nat) as [Hlt|Hge].
  - assert (E : find_unstarted (tasks st) = Some p).
    { apply find_unstarted_first; [lia|done]. }
    rewrite Hlen, (runDownloadThread_claim _ _ _ E). apply IH.
    unfold spawn_shape. simpl.
    rewrite length_app, length_alter. simpl. split_and!; [lia|done|done|..].
    + intros w Hw. destruct (decide (w = p)) as [->|Hne].
      * rewrite lookup_app_r by lia. rewrite Hlen, Nat.sub_diag. simpl.
        rewrite decide_True by done. by rewrite Hc.
      * rewrite lookup_app_l by lia. apply Hths. lia.
    + intros i t. destruct (decide (p = i)) as [->|Hne].
      * rewrite list_lookup_alter_eq. intros Ht.
        destruct (tasks st !! i); simplify_eq/=.
        symmetry. apply bool_decide_eq_true. lia.
      * rewrite list_lookup_alter_ne by done. intros Ht.
        rewrite (Hts _ _ Ht). apply bool_decide_ext. lia.
  - assert (E : find_unstarted (tasks st) = None).
    { apply find_unstarted_all_started. intros i t Hi.
      rewrite (Hts _ _ Hi). apply bool_decide_eq_true.
      apply lookup_lt_Some in Hi. lia. }
    rewrite (runDownloadThread_idle _ _ E). apply IH.
    unfold spawn_shape. simpl.
    rewrite length_app. simpl. split_and!; [lia|done|done|..].
    + intros w Hw. destruct (decide (w = p)) as [->|Hne].
      * rewrite lookup_app_r by lia. rewrite Hlen, Nat.sub_diag. simpl.
        by rewrite decide_False by done.
      * rewrite lookup_app_l by lia. apply Hths. lia.
    + intros i t Hi. rewrite (Hts _ _ Hi).
      apply lookup_lt_Some in Hi. apply bool_decide_ext. lia.
Qed.

Lemma spawn_spec st :
  unspawned st →
  spawn_shape (caches st) (length (tasks st)) (Z.to_nat (nMaxParallel st))
    (spawn st).
Proof.
  intros (Hths & _ & Hts). unfold spawn.
  set (k := Z.to_nat (nMaxParallel st)).
  pose proof (spawn_loop_shape (caches st) (length (tasks st)) k 0
                (with_call AwaitThreads st)) as H.
  unfold spawn_shape in *.
  destruct (join_fields (spawn_loop k (with_call AwaitThreads st)))
    as (-> & -> & _ & Hcj).
  assert (caches (join (spawn_loop k (with_call AwaitThreads st)))
          = caches (spawn_loop k (with_call AwaitThreads st))) as -> by done.
  apply H. simpl. rewrite Hths. split_and!; [done..|lia|].
  intros i t Hi. rewrite Forall_lookup in Hts. by rewrite (Hts _ _ Hi).
Qed.

Lemma step_fetch_length w fe st :
  length (threads (step_fetch w fe st)) = length (threads st).
Proof.
  unfold step_fetch.
  destruct (threads st !! w) as [[i f| |]|] eqn:Hw; try done.
  destruct (tasks st !! i) as [t|] eqn:Hi; try done.
  destruct (_loadBinaryResource_resume _ _ _ _ _) as [[next effs] c'] eqn:E.
  assert (Hths : threads (fold_left (perform i) effs (with_caches c' st))
                 = threads st).
  { destruct f, fe as [| |loaded total|[|]| |[]], (caches st);
      simplify_eq/=; try done.
    all: repeat case_match; by simplify_eq/=. }
  destruct next as [f'|b|e].
  - simpl. by rewrite length_insert, Hths.
  - destruct (resume_thread_fields w
      (emit (Fetched i b)
         (with_tasks
            (alter (set_result b) i
               (tasks (fold_left (perform i) effs (with_caches c' st))))
            (fold_left (perform i) effs (with_caches c' st)))))
      as (_ & _ & -> & _).
    rewrite length_insert. simpl. by rewrite Hths.
  - set (s1 := with_threads _ _).
    destruct (fail_fields e s1) as (_ & -> & _). subst s1. simpl.
    by rewrite length_insert, Hths.
Qed.

Lemma trans_nMaxParallel k st st' :
  trans k st st' → nMaxParallel st' = nMaxParallel st.
Proof. by inversion 1. Qed.

Lemma moves_nMaxParallel st st' :
  rtc moves st st' → nMaxParallel st' = nMaxParallel st.
Proof.
  intros H.
  eapply (invariant_moves (λ s, nMaxParallel s = nMaxParallel st));
    [|exact H|done].
  intros k s s' Hs <-. by eapply trans_nMaxParallel.
Qed.

Lemma step_spawn_count st ev : spawn_count st → spawn_count (step st ev).
Proof.
  intros (Hu & Hk & Hr). split.
  { eapply (invariant_moves (λ s, call s = AwaitSizes → unspawned s));
      [apply trans_unspawned|apply step_moves|done]. }
  rewrite (moves_nMaxParallel _ _ (step_moves st ev)).
  assert (Hsame : ∀ s,
    threads s = threads st → (∀ v, call s = Resolved v → call st = Resolved v) →
    (threads s = [] ∨ length (threads s) = Z.to_nat (nMaxParallel st))
    ∧ (∀ v, call s = Resolved v →
            length (threads s) = Z.to_nat (nMaxParallel st))).
  { intros s Hs Hc. rewrite Hs. split; [done|].
    intros v Hv. eapply Hr, Hc, Hv. }
  destruct ev as [i pe|w fe]; simpl.
  - unfold step_probe.
    destruct (call st) eqn:Hc;
      try (apply Hsame; simpl; [done|intros; congruence]).
    destruct (sizeArr st !! i) as [[|]|];
      try (apply Hsame; simpl; [done|intros; congruence]).
    destruct (getBinarySize pe) as [size|e];
      [|apply Hsame; simpl; [done|intros; congruence]].
    unfold sizes_ready. simpl.
    destruct (mapM id _) as [sizes|];
      [|apply Hsame; simpl; [done|intros; congruence]].
    set (s1 := with_totalSize _ _).
    assert (Hu1 : unspawned s1) by by apply Hu.
    destruct (spawn_spec s1 Hu1) as (Hl & _).
    split; [right; exact Hl|intros; exact Hl].
  - destruct Hk as [Hk|Hk].
    + unfold step_fetch. rewrite Hk. simpl. by apply Hsame.
    + rewrite step_fetch_length. split; [by right|done].
Qed.

Lemma loadBinaryResource_spawn_count arg nMax cb cache :
  spawn_count (loadBinaryResource arg nMax cb cache).
Proof.
  assert (Hu : unspawned (entry arg nMax cb cache)).
  { unfold unspawned, entry; simpl. split_and!; [done..|].
    apply Forall_fmap. by apply Forall_true. }
  split; [apply (reachable_unspawned arg nMax cb cache [])|].
  pose proof (moves_nMaxParallel _ _ (reachable_moves arg nMax cb cache []))
    as HnM.
  simpl in HnM. rewrite HnM. unfold loadBinaryResource. destruct cb.
  - unfold sizes_ready. simpl.
    destruct (mapM id _) as [sizes|]; [|split; [by left|done]].
    set (s1 := with_totalSize _ _).
    assert (Hu1 : unspawned s1) by done.
    destruct (spawn_spec s1 Hu1) as (Hl & _).
    split; [right; exact Hl|intros; exact Hl].
  - destruct (spawn_spec _ Hu) as (H1 & _).
    split; [right; exact H1|intros; exact H1].
Qed.

Lemma run_spawn_count st evs : spawn_count st → spawn_count (run st evs).
Proof.
  revert st. induction evs as [|ev evs IH]; intros st H; simpl; [done|].
  by apply IH, step_spawn_count.
Qed.







End Spawn.

(** ** Claiming *)

Section Claiming.

Lemma held_insert ths w x w' i :
  held (<[w := x]> ths) w' i →
  (w' = w ∧ ∃ f, x = Awaiting i f) ∨ (w' ≠ w ∧ held ths w' i).
Proof.
  intros [f Hf]. apply list_lookup_insert_Some in Hf as [(-> & -> & _)|[? ?]].
  - left. eauto.
  - right. split; [done|]. by exists f.
Qed.

Lemma held_snoc ths x w' i :
  held (ths ++ [x]) w' i →
  held ths w' i ∨ (w' = length ths ∧ ∃ f, x = Awaiting i f).
Proof.
  intros [f Hf]. apply lookup_snoc_Some in Hf as [[_ Hf]|[-> ->]].
  - left. by exists f.
  - right. eauto.
Qed.

Lemma started_at_alter g j ts i :
  (∀ x, started x = true → started (g x) = true) →
  started_at ts i → started_at (alter g j ts) i.
Proof.
  intros Hg (t & Ht & Hs). destruct (decide (j = i)) as [->|Hne].
  - exists (g t). rewrite list_lookup_alter_eq, Ht. auto.
  - exists t. by rewrite list_lookup_alter_ne.
Qed.

Lemma started_at_alter_same g j ts i :
  (∀ x, started (g x) = started x) →
  started_at (alter g j ts) i ↔ started_at ts i.
Proof.
  intros Hg. split.
  - intros (t & Ht & Hs). destruct (decide (j = i)) as [->|Hne].
    + rewrite list_lookup_alter_eq in Ht.
      destruct (ts !! i) as [t0|] eqn:E; simplify_eq/=.
      exists t0. by rewrite <- Hg.
    + rewrite list_lookup_alter_ne in Ht by done. by exists t.
  - apply started_at_alter. intros x. by rewrite Hg.
Qed.

Lemma started_at_set_started j ts i :
  started_at (alter set_started j ts) i
  ↔ started_at ts i ∨ (i = j ∧ is_Some (ts !! j)).
Proof.
  split.
  - intros (t & Ht & Hs). destruct (decide (j = i)) as [->|Hne].
    + right. split; [done|]. rewrite list_lookup_alter_eq in Ht.
      by destruct (ts !! i).
    + left. rewrite list_lookup_alter_ne in Ht by done. by exists t.
  - intros [H|[-> [t Ht]]]; [by apply started_at_alter|].
    exists (set_started t). by rewrite list_lookup_alter_eq, Ht.
Qed.

Lemma find_unstarted_not_started ts j :
  find_unstarted ts = Some j → ¬ started_at ts j ∧ is_Some (ts !! j).
Proof.
  intros (t & Ht & Hs & _)%find_unstarted_Some. split; [|by eauto].
  intros (t' & Ht' & Hs'). simplify_eq. congruence.
Qed.

Lemma claimed_app l k : claimed (l ++ k) = claimed l ++ claimed k.
Proof. apply omap_app. Qed.

Lemma claimed_start_log c w j : claimed (start_log c w j) = [j].
Proof. by destruct c. Qed.

Lemma all_started_alter (g : Task → Task) j (ts : list Task) :
  (∀ x, started x = true → started (g x) = true) →
  (∀ i t, ts !! i = Some t → started t = true) →
  ∀ i t, alter g j ts !! i = Some t → started t = true.
Proof.
  intros Hg Hts i t. destruct (decide (j = i)) as [->|Hne].
  - rewrite list_lookup_alter_eq.
    destruct (ts !! i) eqn:E; intros; simplify_eq/=. apply Hg. eauto.
  - rewrite list_lookup_alter_ne by done. apply Hts.
Qed.

Lemma elem_of_insert_other (ths : list Thread) w x y :
  y ∈ <[w := x]> ths → y ≠ x → y ∈ ths.
Proof.
  intros [w' Hw']%list_elem_of_lookup Hne.
  apply list_lookup_insert_Some in Hw' as [(? & ? & ?)|[? ?]]; [done|].
  apply list_elem_of_lookup. eauto.
Qed.

Lemma claimed_fetched_start_log i b c w j :
  claimed (Fetched i b :: start_log c w j) = [j].
Proof. by destruct c. Qed.

Lemma trans_claim_inv k st st' : trans k st st' → claim_inv st → claim_inv st'.
Proof.
  intros Ht [Ihs Iho Ic1 Ic2 Irl].
  inv_trans Ht; try (by constructor).
  - (* a thread is pushed with a claim *)
    destruct (find_unstarted_not_started _ _ Hfind) as [Hn Hs].
    constructor; simpl.
    + intros w i [Hw|[-> [f' Hf]]]%held_snoc.
      * apply started_at_alter; [done|]. by eapply Ihs.
      * simplify_eq. apply started_at_set_started. by right.
    + intros w w' i [Hw|[-> [f' Hf]]]%held_snoc
        [Hw'|[-> [f'' Hf']]]%held_snoc; simplify_eq.
      * by eapply Iho.
      * destruct Hn. by eapply Ihs.
      * destruct Hn. by eapply Ihs.
      * done.
    + rewrite claimed_app, claimed_start_log. apply NoDup_app.
      split_and!; [done| |apply NoDup_singleton].
      intros i Hi' ->%list_elem_of_singleton. by apply Hn, Ic2.
    + intros i. rewrite claimed_app, claimed_start_log, elem_of_app,
        list_elem_of_singleton, started_at_set_started, Ic2.
      split; (intros [?|?]; [by left|right]); [by subst|by destruct_and!].
    + intros [Hr|Hr%list_elem_of_singleton]%elem_of_app; [|done].
      destruct Hn. destruct Hs as [t' Ht']. exists t'. split; [done|].
      by eapply Irl.
  - (* a thread is pushed that returns at once *)
    constructor; simpl; try done.
    + intros w i [Hw|[-> [f' Hf]]]%held_snoc; [by eapply Ihs|done].
    + intros w w' i [Hw|[-> [f' Hf]]]%held_snoc
        [Hw'|[-> [f'' Hf']]]%held_snoc; simplify_eq. by eapply Iho.
    + intros _. rewrite <- Forall_lookup. by apply find_unstarted_None.
  - (* progress *)
    constructor; simpl; try done.
    + intros w' i' Hw'. apply started_at_alter_same; [done|]. by eapply Ihs.
    + rewrite claimed_app. destruct rp; simpl; by rewrite app_nil_r.
    + intros i'. rewrite started_at_alter_same by done.
      rewrite claimed_app. destruct rp; simpl; rewrite app_nil_r; apply Ic2.
    + intros Hr. apply all_started_alter; [done|by apply Irl].
  - (* the fetch moves to another suspension point *)
    assert (Hobs : claimed obs = []) by by inversion Hph.
    constructor; simpl.
    + intros w' i' [[-> [f'' Hf]]|[Hne Hw']]%held_insert; simplify_eq.
      * eapply Ihs. by eexists.
      * by eapply Ihs.
    + intros w1 w2 i' [[-> [f1 Hf1]]|[Hne1 Hw1]]%held_insert
        [[-> [f2 Hf2]]|[Hne2 Hw2]]%held_insert; simplify_eq; try done.
      * symmetry. eapply Iho; [done|]. by eexists.
      * eapply Iho; [done|]. by eexists.
      * by eapply Iho.
    + by rewrite claimed_app, Hobs, app_nil_r.
    + intros i'. rewrite claimed_app, Hobs, app_nil_r. apply Ic2.
    + intros Hr. apply Irl. by eapply elem_of_insert_other.
  - (* the fetch returns and the thread claims the next task *)
    destruct (find_unstarted_not_started _ _ Hfind) as [Hn Hs].
    assert (Hres : ∀ x, started_at (alter (set_result b) i ts) x
                        ↔ started_at ts x).
    { intros x. by apply started_at_alter_same. }
    constructor; simpl.
    + intros w' i' [[-> [f'' Hf]]|[Hne Hw']]%held_insert; simplify_eq.
      * apply started_at_set_started. by right.
      * apply started_at_alter; [done|]. apply Hres. by eapply Ihs.
    + intros w1 w2 i' [[-> [f1 Hf1]]|[Hne1 Hw1]]%held_insert
        [[-> [f2 Hf2]]|[Hne2 Hw2]]%held_insert; simplify_eq; try done.
      * destruct Hn. apply Hres. by eapply Ihs.
      * destruct Hn. apply Hres. by eapply Ihs.
      * by eapply Iho.
    + rewrite claimed_app, claimed_fetched_start_log. apply NoDup_app.
      split_and!; [done| |apply NoDup_singleton].
      intros x Hx ->%list_elem_of_singleton. by apply Hn, Hres, Ic2.
    + intros x. rewrite claimed_app, claimed_fetched_start_log, elem_of_app,
        list_elem_of_singleton, started_at_set_started, Hres, Ic2.
      split; (intros [?|?]; [by left|right]); [by subst|by destruct_and!].
    + intros Hr. destruct Hn. apply Hres.
      destruct Hs as [t0 Ht0]. rewrite list_lookup_alter in Ht0.
      assert (Hr' : Returned ∈ ths) by by eapply elem_of_insert_other.
      case_decide; subst.
      * exists t. split; [done|]. by eapply Irl.
      * exists t0. split; [done|]. by eapply Irl.
  - (* the fetch returns and the thread finds nothing to claim *)
    constructor; simpl.
    + intros w' i' [[-> [f'' Hf]]|[Hne Hw']]%held_insert; simplify_eq.
      apply started_at_alter_same; [done|]. by eapply Ihs.
    + intros w1 w2 i' [[-> [f1 Hf1]]|[Hne1 Hw1]]%held_insert
        [[-> [f2 Hf2]]|[Hne2 Hw2]]%held_insert; simplify_eq.
      by eapply Iho.
    + by rewrite claimed_app, app_nil_r.
    + intros x. rewrite claimed_app, app_nil_r.
      by rewrite started_at_alter_same.
    + intros _. rewrite <- Forall_lookup. by apply find_unstarted_None.
  - (* the fetch throws *)
    constructor; simpl; try done.
    + intros w' i' [[-> [f'' Hf]]|[Hne Hw']]%held_insert; simplify_eq.
      by eapply Ihs.
    + intros w1 w2 i' [[-> [f1 Hf1]]|[Hne1 Hw1]]%held_insert
        [[-> [f2 Hf2]]|[Hne2 Hw2]]%held_insert; simplify_eq.
      by eapply Iho.
    + intros Hr. apply Irl. by eapply elem_of_insert_other.
Qed.

Lemma entry_claim_inv arg nMax cb cache : claim_inv (entry arg nMax cb cache).
Proof.
  constructor; simpl.
  - by intros w i [f Hf].
  - by intros w w' i [f Hf].
  - apply NoDup_nil_2.
  - intros i. split; [by intros ?%elem_of_nil|].
    intros (t & Ht & Hs). apply list_lookup_fmap_Some in Ht as (u & -> & _).
    done.
  - by intros ?%elem_of_nil.
Qed.

Lemma reachable_claim_inv arg nMax cb cache evs :
  claim_inv (run (loadBinaryResource arg nMax cb cache) evs).
Proof.
  eapply (invariant_moves claim_inv);
    [apply trans_claim_inv|apply reachable_moves|apply entry_claim_inv].
Qed.

Lemma trans_claims k st st' :
  trans k st st' →
  claimed (log st') = claimed (log st)
  ∨ ∃ j, claimed (log st') = claimed (log st) ++ [j]
         ∧ ¬ started_at (tasks st) j
         ∧ ∀ i, (i < j)%nat → started_at (tasks st) i.
Proof.
  intros Ht. inv_trans Ht; try (by left).
  - right. exists j. rewrite claimed_app, claimed_start_log.
    destruct (find_unstarted_Some _ _ Hfind) as (t0 & Ht0 & Hs0 & Hlt).
    split_and!; [done|by apply find_unstarted_not_started|].
    intros i Hi'. destruct (lookup_lt_is_Some_2 ts i) as [ti Hti].
    { apply lookup_lt_Some in Ht0. lia. }
    exists ti. eauto.
  - left. rewrite claimed_app. destruct rp; simpl; by rewrite app_nil_r.
  - left. rewrite claimed_app.
    assert (claimed obs = []) as -> by by inversion Hph.
    by rewrite app_nil_r.
  - right. exists j. rewrite claimed_app, claimed_fetched_start_log.
    destruct (find_unstarted_Some _ _ Hfind) as (t0 & Ht0 & Hs0 & Hlt).
    assert (Hres : ∀ x, started_at (alter (set_result b) i ts) x
                        ↔ started_at ts x).
    { intros x. by apply started_at_alter_same. }
    split_and!; [done| |].
    + rewrite <- Hres. by apply find_unstarted_not_started.
    + intros x Hx. apply Hres.
      destruct (lookup_lt_is_Some_2 (alter (set_result b) i ts) x)
        as [tx Htx].
      { apply lookup_lt_Some in Ht0. lia. }
      exists tx. eauto.
  - left. by rewrite claimed_app, app_nil_r.
Qed.

Lemma trans_claim_order k st st' :
  trans k st st' →
  claim_inv st ∧ claimed (log st) = seq 0 (length (claimed (log st))) →
  claim_inv st' ∧ claimed (log st') = seq 0 (length (claimed (log st'))).
Proof.
  intros Ht [Hinv Hseq]. split; [by eapply trans_claim_inv|].
  destruct (trans_claims _ _ _ Ht) as [->|(j & -> & Hn & Hlt)]; [done|].
  set (m := length (claimed (log st))) in *.
  assert (j = m) as ->.
  { destruct (decide (j < m)%nat) as [Hjm|Hjm].
    - destruct Hn. apply (claimed_started _ Hinv). rewrite Hseq.
      apply elem_of_seq. lia.
    - destruct (decide (m < j)%nat) as [Hmj|Hmj]; [|lia].
      specialize (Hlt m Hmj). apply (claimed_started _ Hinv) in Hlt.
      rewrite Hseq in Hlt. apply elem_of_seq in Hlt. lia. }
  rewrite length_app. change (length [m]) with 1%nat.
  rewrite Nat.add_1_r, seq_S. simpl. fold m. by rewrite <- Hseq.
Qed.

(** C9.  Each round of the worker loop scans the tasks in input order and
    claims the first one whose [started] is false by setting it, leaving the
    other tasks as they are; it returns, without touching anything, exactly
    when the scan finds none.  Throughout every run the tasks are claimed
    in input order, no task is claimed twice, the started tasks are the
    claimed ones, no two threads hold the same task, and a thread has
    returned only if every task is started. *)
Theorem C9_claim_exclusive_in_order :
  (∀ w st,
     match find_unstarted (tasks st) with
     | Some j =>
         (∃ t, tasks st !! j = Some t ∧ started t = false)
         ∧ (∀ i t, tasks st !! i = Some t → (i < j)%nat → started t = true)
         ∧ (∃ st', runDownloadThread w st
                   = (st', Awaiting j (start_fetch (caches st)))
                   ∧ tasks st' = alter set_started j (tasks st)
                   ∧ claimed (log st') = claimed (log st) ++ [j])
     | None =>
         Forall (λ t, started t = true) (tasks st)
         ∧ runDownloadThread w st = (st, Returned)
     end)
  ∧ (∀ arg nMax cb cache evs,
       let st := run (loadBinaryResource arg nMax cb cache) evs in
       claimed (log st) = seq 0 (length (claimed (log st)))
       ∧ NoDup (claimed (log st))
       ∧ (∀ i, i ∈ claimed (log st) ↔ started_at (tasks st) i)
       ∧ (∀ w w' i,
            held (threads st) w i → held (threads st) w' i → w = w')
       ∧ (Returned ∈ threads st →
          Forall (λ t, started t = true) (tasks st))).
Proof.
  split.
  - intros w st. destruct (find_unstarted (tasks st)) as [j|] eqn:E.
    + destruct (find_unstarted_Some _ _ E) as (t & Ht & Hs & Hlt).
      split_and!; [by eauto|done|].
      rewrite (runDownloadThread_claim _ _ _ E). eexists. split; [done|].
      simpl. by rewrite claimed_app, claimed_start_log.
    + split; [by apply find_unstarted_None|by apply runDownloadThread_idle].
  - intros arg nMax cb cache evs st.
    assert (H : claim_inv st
                ∧ claimed (log st) = seq 0 (length (claimed (log st)))).
    { eapply (invariant_moves
        (λ s, claim_inv s
              ∧ claimed (log s) = seq 0 (length (claimed (log s)))));
        [apply trans_claim_order|apply reachable_moves|].
      split; [apply entry_claim_inv|done]. }
    destruct H as [[Ihs Iho Ic1 Ic2 Irl] Hseq].
    split_and!; try done.
    intros Hr. apply Forall_lookup. by apply Irl.
Qed.

Lemma C9_claim_exclusive_in_order_witness :
  let st :=
    run (loadBinaryResource (UrlList ["a"; "b"; "c"]%string) 2 false None)
      [OnFetch 1 (OnLoad (Some [x01]%byte));
       OnFetch 0 (OnLoad (Some [x02]%byte));
       OnFetch 1 (OnLoad (Some [x03]%byte))] in
  Returned ∈ threads st ∧ Forall (λ t, started t = true) (tasks st).
Proof.
  intros st.
  destruct C9_claim_exclusive_in_order as [_ H].
  destruct (H (UrlList ["a"; "b"; "c"]%string) 2 false None
              [OnFetch 1 (OnLoad (Some [x01]%byte));
               OnFetch 0 (OnLoad (Some [x02]%byte));
               OnFetch 1 (OnLoad (Some [x03]%byte))])
    as (_ & _ & _ & _ & H5).
  assert (Hr : Returned ∈ threads st).
  { vm_compute. apply list_elem_of_here. }
  split; [exact Hr|exact (H5 Hr)].
Defined.

End Claiming.

(** ** The returned value *)

Section Results.

Lemma fetched_app l k : fetched (l ++ k) = fetched l ++ fetched k.
Proof. apply omap_app. Qed.

Lemma fetched_start_log c w j : fetched (start_log c w j) = [].
Proof. by destruct c. Qed.

Lemma result_at_alter (g : Task → Task) j (ts : list Task) i b :
  (∀ x, result (g x) = result x) →
  (∀ x, started x = true → started (g x) = true) →
  (∃ t, ts !! i = Some t ∧ result t = b ∧ started t = true) →
  ∃ t, alter g j ts !! i = Some t ∧ result t = b ∧ started t = true.
Proof.
  intros Hr Hs (t & Ht & Hb & Hst). destruct (decide (j = i)) as [->|Hne].
  - exists (g t). rewrite list_lookup_alter_eq, Ht. split_and!; auto.
    by rewrite Hr.
  - exists t. by rewrite list_lookup_alter_ne.
Qed.

Lemma forallb_is_returned ths :
  forallb is_returned ths = true → Forall (λ th, th = Returned) ths.
Proof.
  induction ths as [|[] ths IH]; simpl; try done.
  intros H. constructor; auto.
Qed.

Lemma not_all_returned (ths : list Thread) w i f :
  ths !! w = Some (Awaiting i f) → ¬ Forall (λ th, th = Returned) ths.
Proof.
  intros Hw Hall. rewrite Forall_lookup in Hall. by specialize (Hall _ _ Hw).
Qed.

Lemma elem_of_insert_keep (ths : list Thread) w x y z :
  ths !! w = Some z → y ∈ ths → y ≠ z → y ∈ <[w := x]> ths.
Proof.
  intros Hw [w' Hw']%list_elem_of_lookup Hne.
  apply list_elem_of_lookup. exists w'.
  rewrite list_lookup_insert_ne; [done|]. intros ->. congruence.
Qed.

Lemma held_insert_other (ths : list Thread) w x w' i :
  w' ≠ w → held ths w' i → held (<[w := x]> ths) w' i.
Proof. intros Hne [f Hf]. exists f. by rewrite list_lookup_insert_ne. Qed.

Lemma held_insert_same (ths : list Thread) w f j :
  (w < length ths)%nat → held (<[w := Awaiting j f]> ths) w j.
Proof. intros Hlt. exists f. by apply list_lookup_insert_eq. Qed.

Lemma trans_result_inv k st st' :
  trans k st st' → claim_inv st → result_inv st → result_inv st'.
Proof.
  intros Ht [Ihs Iho Ic1 Ic2 Irl] [Rs Rf Rj].
  inv_trans Ht; try (constructor; simpl; done).
  - (* a thread is pushed with a claim *)
    destruct (find_unstarted_not_started _ _ Hfind) as [Hn Hs].
    constructor; simpl; [| |done].
    + intros x [Hx|[-> _]]%started_at_set_started.
      * destruct (Rs x Hx) as [[w Hw]|[[e He]|[b Hb]]].
        -- left. exists w. destruct Hw as [f Hf]. exists f.
           by apply lookup_app_l_Some.
        -- right; left. exists e. apply elem_of_app. by left.
        -- right; right. exists b.
           by rewrite fetched_app, fetched_start_log, app_nil_r.
      * left. exists (length ths), (start_fetch c).
        by rewrite lookup_app_r, Nat.sub_diag.
    + intros x b. rewrite fetched_app, fetched_start_log, app_nil_r.
      intros Hx. destruct (Rf x b Hx) as [Hres Hnh]. split.
      * by apply result_at_alter.
      * intros w [Hw|[-> [f' Hf]]]%held_snoc; [by eapply Hnh|].
        simplify_eq. destruct Hn. destruct Hres as (t0 & ? & ? & ?).
        by exists t0.
  - (* a thread is pushed that returns at once *)
    constructor; simpl; [| |done].
    + intros x Hx. destruct (Rs x Hx) as [[w Hw]|[[e He]|[b Hb]]].
      * left. exists w. destruct Hw as [f Hf]. exists f.
        by apply lookup_app_l_Some.
      * right; left. exists e. apply elem_of_app. by left.
      * by eauto.
    + intros x b Hx. destruct (Rf x b Hx) as [Hres Hnh]. split; [done|].
      intros w [Hw|[-> [f' Hf]]]%held_snoc; [by eapply Hnh|done].
  - (* the threads are joined *)
    constructor; simpl; try done.
    intros v [= <-]. split; [by apply forallb_is_returned|done].
  - (* progress *)
    assert (Hlg : fetched
      (lg ++ (if rp
              then [Progress
                      (sumArr (map sizeLoaded
                                 (alter (set_progress loaded total) i ts)))
                      tot]
              else [])) = fetched lg).
    { rewrite fetched_app. destruct rp; simpl; by rewrite app_nil_r. }
    constructor; simpl.
    + intros x Hx%started_at_alter_same; [|done]. rewrite Hlg. by apply Rs.
    + intros x b. rewrite Hlg. intros Hx.
      destruct (Rf x b Hx) as [Hres Hnh]. split; [|done].
      by apply result_at_alter.
    + intros v Hv. destruct (Rj v Hv) as [Hall _].
      by destruct (not_all_returned _ _ _ _ Hw).
  - (* the fetch moves to another suspension point *)
    assert (Hlg : fetched (lg ++ obs) = fetched lg).
    { rewrite fetched_app. inversion Hph; simpl; by rewrite app_nil_r. }
    constructor; simpl.
    + intros x Hx. rewrite Hlg.
      destruct (Rs x Hx) as [[w' Hw']|[[e He]|[b Hb]]]; [|right; left|by eauto].
      * left. exists w'. destruct (decide (w' = w)) as [->|Hne].
        -- destruct Hw' as [f0 Hf0]. simplify_eq.
           apply held_insert_same. by eapply lookup_lt_Some.
        -- by apply held_insert_other.
      * exists e. by eapply elem_of_insert_keep.
    + intros x b. rewrite Hlg. intros Hx.
      destruct (Rf x b Hx) as [Hres Hnh]. split; [done|].
      intros w' [[-> [f'' Hf]]|[Hne Hw']]%held_insert; simplify_eq.
      * eapply Hnh. by eexists.
      * by eapply Hnh.
    + intros v Hv. destruct (Rj v Hv) as [Hall _].
      by destruct (not_all_returned _ _ _ _ Hw).
  - (* the fetch returns and the thread claims the next task *)
    destruct (find_unstarted_not_started _ _ Hfind) as [Hn Hs].
    assert (Hres : ∀ x, started_at (alter (set_result b) i ts) x
                        ↔ started_at ts x).
    { intros x. by apply started_at_alter_same. }
    assert (Hsi : started_at ts i) by (eapply Ihs; by eexists).
    assert (Hji : j ≠ i) by (intros ->; by apply Hn, Hres).
    assert (Hlg : fetched (lg ++ Fetched i b :: start_log c' w j)
                  = fetched lg ++ [(i, b)]).
    { rewrite fetched_app. by destruct c'. }
    assert (Hwl : (w < length ths)%nat) by by eapply lookup_lt_Some.
    constructor; simpl.
    + rewrite Hlg.
      intros x [Hx%Hres|[-> _]]%started_at_set_started;
        [|left; exists w; by apply held_insert_same].
      destruct (Rs x Hx) as [[w0 Hw0]|[[e He]|[b0 Hb0]]].
      * destruct (decide (w0 = w)) as [->|Hne].
        -- destruct Hw0 as [f0 Hf0]. simplify_eq. right; right. exists b.
           apply elem_of_app. right. by apply list_elem_of_singleton.
        -- left. exists w0. by apply held_insert_other.
      * right; left. exists e. by eapply elem_of_insert_keep.
      * right; right. exists b0. apply elem_of_app. by left.
    + rewrite Hlg.
      intros x b' [Hx|[= -> ->]%list_elem_of_singleton]%elem_of_app.
      * destruct (Rf x b' Hx) as [(t0 & Ht0 & Hb0 & Hs0) Hnh].
        assert (x ≠ i) by (intros ->; eapply Hnh; by eexists).
        split.
        -- apply result_at_alter; [done..|]. exists t0.
           by rewrite list_lookup_alter_ne.
        -- intros w' [[-> [f'' Hf]]|[Hne Hw']]%held_insert; simplify_eq.
           ++ apply Hn, Hres. by exists t0.
           ++ by eapply Hnh.
      * split.
        -- apply result_at_alter; [done..|].
           destruct Hsi as (t0 & Ht0 & Hs0). simplify_eq.
           exists (set_result b t). by rewrite list_lookup_alter_eq, Hi.
        -- intros w' [[-> [f'' Hf]]|[Hne Hw']]%held_insert; simplify_eq.
           apply Hne. eapply Iho; [done|]. by eexists.
    + intros v Hv. destruct (Rj v Hv) as [Hall _].
      by destruct (not_all_returned _ _ _ _ Hw).
  - (* the fetch returns and the thread finds nothing to claim *)
    assert (Hsi : started_at ts i) by (eapply Ihs; by eexists).
    assert (Hlg : fetched (lg ++ [Fetched i b]) = fetched lg ++ [(i, b)]).
    { by rewrite fetched_app. }
    constructor; simpl.
    + rewrite Hlg. intros x Hx%started_at_alter_same; [|done].
      destruct (Rs x Hx) as [[w0 Hw0]|[[e He]|[b0 Hb0]]].
      * destruct (decide (w0 = w)) as [->|Hne].
        -- destruct Hw0 as [f0 Hf0]. simplify_eq. right; right. exists b.
           apply elem_of_app. right. by apply list_elem_of_singleton.
        -- left. exists w0. by apply held_insert_other.
      * right; left. exists e. by eapply elem_of_insert_keep.
      * right; right. exists b0. apply elem_of_app. by left.
    + rewrite Hlg.
      intros x b' [Hx|[= -> ->]%list_elem_of_singleton]%elem_of_app.
      * destruct (Rf x b' Hx) as [(t0 & Ht0 & Hb0 & Hs0) Hnh].
        assert (x ≠ i) by (intros ->; eapply Hnh; by eexists).
        split.
        -- exists t0. by rewrite list_lookup_alter_ne.
        -- intros w' [[-> [f'' Hf]]|[Hne Hw']]%held_insert; simplify_eq.
           by eapply Hnh.
      * split.
        -- destruct Hsi as (t0 & Ht0 & Hs0). simplify_eq.
           exists (set_result b t). by rewrite list_lookup_alter_eq, Hi.
        -- intros w' [[-> [f'' Hf]]|[Hne Hw']]%held_insert; simplify_eq.
           apply Hne. eapply Iho; [done|]. by eexists.
    + intros v Hv. destruct (Rj v Hv) as [Hall _].
      by destruct (not_all_returned _ _ _ _ Hw).
  - (* the fetch throws *)
    assert (Hwl : (w < length ths)%nat) by by eapply lookup_lt_Some.
    constructor; simpl.
    + intros x Hx.
      destruct (Rs x Hx) as [[w0 Hw0]|[[e' He]|[b0 Hb0]]]; [| |by eauto].
      * destruct (decide (w0 = w)) as [->|Hne].
        -- right; left. exists e. apply list_elem_of_lookup. exists w.
           by apply list_lookup_insert_eq.
        -- left. exists w0. by apply held_insert_other.
      * right; left. exists e'. by eapply elem_of_insert_keep.
    + intros x b' Hx. destruct (Rf x b' Hx) as [Hres Hnh]. split; [done|].
      intros w' [[-> [f'' Hf]]|[Hne Hw']]%held_insert; simplify_eq.
      by eapply Hnh.
    + intros v Hv. destruct (Rj v Hv) as [Hall _].
      by destruct (not_all_returned _ _ _ _ Hw).
Qed.

Lemma entry_result_inv arg nMax cb cache :
  result_inv (entry arg nMax cb cache).
Proof.
  constructor; simpl; [|by intros ?? ?%elem_of_nil|done].
  intros i (t & Ht & Hs). apply list_lookup_fmap_Some in Ht as (u & -> & _).
  done.
Qed.

Lemma reachable_result_inv arg nMax cb cache evs :
  result_inv (run (loadBinaryResource arg nMax cb cache) evs).
Proof.
  assert (H : claim_inv (run (loadBinaryResource arg nMax cb cache) evs)
              ∧ result_inv (run (loadBinaryResource arg nMax cb cache) evs));
    [|by destruct H].
  eapply (invariant_moves (λ s, claim_inv s ∧ result_inv s));
    [|apply reachable_moves|split; [apply entry_claim_inv|apply entry_result_inv]].
  intros k s s' Hs [H1 H2]. split; [by eapply trans_claim_inv|].
  by eapply trans_result_inv.
Qed.

Lemma trans_urls k st st' :
  trans k st st' → map url (tasks st') = map url (tasks st).
Proof.
  intros Ht. inv_trans Ht; rewrite ?map_alter_same; done.
Qed.

Lemma reachable_urls arg nMax cb cache evs :
  map url (tasks (run (loadBinaryResource arg nMax cb cache) evs))
  = urls_of arg.
Proof.
  eapply (invariant_moves (λ s, map url (tasks s) = urls_of arg));
    [|apply reachable_moves|].
  - intros k s s' Hs <-. by eapply trans_urls.
  - simpl. rewrite <- list_fmap_compose. apply list_fmap_id.
Qed.

Lemma buffers_final_value ts : buffers (final_value ts) = map result ts.
Proof. by destruct ts as [|t [|t' ts]]. Qed.



End Results.

(** ** Aggregate progress *)

Section Progress.

Lemma mapM_id_Some (l : list (option number)) sizes :
  mapM id l = Some sizes ↔ l = Some <$> sizes.
Proof.
  rewrite mapM_Some. split.
  - intros H. induction H as [|x y l k Hx _ IH]; [done|].
    simpl in *. subst x. by rewrite IH.
  - intros ->. induction sizes; constructor; done.
Qed.

Lemma insert_nonempty (ths : list Thread) w x :
  ths ≠ [] → <[w := x]> ths ≠ [].
Proof. by destruct ths, w. Qed.

Lemma snoc_nonempty (ths : list Thread) x : ths ++ [x] ≠ [].
Proof. by destruct ths. Qed.

Lemma trans_progress_inv k st st' :
  trans k st st' → progress_inv st → progress_inv st'.
Proof.
  intros Ht [K0 K1 P1 P2].
  assert (Hk1 : ∀ s,
    sizeArr s = sizeArr st → totalSize s = totalSize st →
    reportProgress st = true → call st = AwaitThreads ∨ threads st ≠ [] →
    total_known s).
  { intros s Hsz Htot Hrp Hc. unfold total_known. rewrite Hsz, Htot.
    by apply K1. }
  assert (Hp2 : ∀ (ths' : list Thread) a b,
    (a, b) ∈ progress_calls (log st) → ths' ≠ [] →
    b = totalSize st ∧ ths' ≠ []).
  { intros ths' a b Hab Hne. by destruct (P2 a b Hab) as [-> _]. }
  inv_trans Ht;
    try match goal with
        | Hw : ?ths !! _ = Some (Awaiting _ _) |- _ =>
            assert (Hne : ths ≠ []) by (intros ->; done)
        end;
    (constructor; simpl;
     [try done; by intros ->%K0
     |try done; try (intros Hrp _; apply Hk1; by auto)
     |try done
     |try done]).
  - (* a probe rejects *)
    intros Hrp [|Hne]; [done|]. by rewrite K0 in Hne.
  - (* a size arrives *)
    intros Hrp [|Hne]; [done|]. by rewrite K0 in Hne.
  - (* the sizes are complete *)
    intros Hrp _. destruct H as [(sizes & Hs & ->)|[? _]]; [|congruence].
    exists sizes. split; [|done]. by apply mapM_id_Some.
  - intros a b Hab. destruct (P2 a b Hab) as [_ Hne]. by rewrite K0 in Hne.
  - (* a thread is pushed with a claim *)
    intros Hrp. rewrite progress_calls_app, P1 by done. by destruct c.
  - intros a b. rewrite progress_calls_app.
    assert (progress_calls (start_log c (length ths) j) = []) as ->
      by by destruct c.
    rewrite app_nil_r. intros Hab. apply (Hp2 _ _ _ Hab);
      auto using insert_nonempty, snoc_nonempty.
  - (* a thread is pushed that returns at once *)
    intros a b Hab. apply (Hp2 _ _ _ Hab);
      auto using insert_nonempty, snoc_nonempty.
  - (* progress *)
    intros ->. rewrite progress_calls_app. simpl. rewrite app_nil_r. auto.
  - intros a b. rewrite progress_calls_app.
    intros [Hab|Hab]%elem_of_app; [by apply (Hp2 _ _ _ Hab)|].
    destruct rp; simpl in Hab.
    + apply list_elem_of_singleton in Hab. by simplify_eq.
    + by apply elem_of_nil in Hab.
  - (* the fetch moves to another suspension point *)
    intros Hrp. rewrite progress_calls_app, P1 by done.
    by inversion Hph.
  - intros a b. rewrite progress_calls_app.
    assert (progress_calls obs = []) as -> by by inversion Hph.
    rewrite app_nil_r. intros Hab. apply (Hp2 _ _ _ Hab);
      auto using insert_nonempty, snoc_nonempty.
  - (* the fetch returns and the thread claims the next task *)
    intros Hrp. rewrite progress_calls_app, P1 by done. by destruct c'.
  - intros a b0. rewrite progress_calls_app.
    assert (progress_calls (Fetched i b :: start_log c' w j) = []) as ->
      by by destruct c'.
    rewrite app_nil_r. intros Hab. apply (Hp2 _ _ _ Hab);
      auto using insert_nonempty, snoc_nonempty.
  - (* the fetch returns and the thread finds nothing to claim *)
    intros Hrp. by rewrite progress_calls_app, P1.
  - intros a b0. rewrite progress_calls_app. simpl. rewrite app_nil_r.
    intros Hab. apply (Hp2 _ _ _ Hab);
      auto using insert_nonempty, snoc_nonempty.
  - (* the fetch throws *)
    intros a b0 Hab. apply (Hp2 _ _ _ Hab);
      auto using insert_nonempty, snoc_nonempty.
Qed.

Lemma entry_progress_inv arg nMax cb cache :
  progress_inv (entry arg nMax cb cache).
Proof.
  constructor; simpl; try done.
  - by intros _ [|].
  - by intros a b ?%elem_of_nil.
Qed.

Lemma reachable_progress_inv arg nMax cb cache evs :
  progress_inv (run (loadBinaryResource arg nMax cb cache) evs).
Proof.
  eapply (invariant_moves progress_inv);
    [apply trans_progress_inv|apply reachable_moves|apply entry_progress_inv].
Qed.

Lemma trans_frame k st st' :
  trans k st st' →
  reportProgress st' = reportProgress st
  ∧ length (sizeArr st') = length (sizeArr st)
  ∧ length (tasks st') = length (tasks st).
Proof.
  intros Ht. inv_trans Ht; rewrite ?length_insert, ?length_alter; done.
Qed.

Lemma reachable_frame arg nMax cb cache evs :
  let st := run (loadBinaryResource arg nMax cb cache) evs in
  reportProgress st = cb
  ∧ (cb = true → length (sizeArr st) = length (urls_of arg))
  ∧ length (tasks st) = length (urls_of arg).
Proof.
  eapply (invariant_moves
    (λ s, reportProgress s = cb
          ∧ (cb = true → length (sizeArr s) = length (urls_of arg))
          ∧ length (tasks s) = length (urls_of arg)));
    [|apply reachable_moves|].
  - intros k s s' Hs (H1 & H2 & H3).
    destruct (trans_frame _ _ _ Hs) as (-> & -> & ->). done.
  - simpl. split_and!; [done| |by rewrite length_map].
    intros ->. by rewrite length_map.
Qed.

(** Once threads exist, the sizes and their total are never revised. *)
Lemma trans_total_stable k st st' :
  trans k st st' → progress_inv st → threads st ≠ [] →
  threads st' ≠ [] ∧ totalSize st' = totalSize st
  ∧ sizeArr st' = sizeArr st.
Proof.
  intros Ht [K0 _ _ _] Hne.
  inv_trans Ht; try done;
    try (by specialize (K0 eq_refl));
    split_and!; auto using insert_nonempty, snoc_nonempty.
Qed.

Lemma moves_total_stable st st' :
  rtc moves st st' → progress_inv st → threads st ≠ [] →
  totalSize st' = totalSize st ∧ sizeArr st' = sizeArr st.
Proof.
  intros H Hinv Hne.
  assert (progress_inv st' ∧ threads st' ≠ []
          ∧ totalSize st' = totalSize st ∧ sizeArr st' = sizeArr st)
    as (_ & _ & ? & ?); [|done].
  eapply (invariant_moves
    (λ s, progress_inv s ∧ threads s ≠ []
          ∧ totalSize s = totalSize st ∧ sizeArr s = sizeArr st));
    [|exact H|done].
  intros k s s' Hs (H1 & H2 & <- & <-).
  split; [by eapply trans_progress_inv|]. by eapply trans_total_stable.
Qed.

Lemma trans_sizes_kept k st st' i size :
  trans k st st' → sizeArr st !! i = Some (Some size) →
  sizeArr st' !! i = Some (Some size).
Proof.
  intros Ht. inv_trans Ht; try done. intros Hs.
  rewrite list_lookup_insert_ne; [done|]. intros ->. congruence.
Qed.

Lemma step_progress_event st w i t loaded total :
  threads st !! w = Some (Awaiting i AwaitRequest) → tasks st !! i = Some t →
  let st' := step st (OnFetch w (OnProgress loaded total)) in
  tasks st' = alter (set_progress loaded total) i (tasks st)
  ∧ log st'
    = log st ++ (if reportProgress st
                 then [Progress (sumArr (map sizeLoaded (tasks st')))
                         (totalSize st')]
                 else [])
  ∧ totalSize st' = totalSize st ∧ threads st' = threads st
  ∧ call st' = call st.
Proof.
  intros Hw Hi. pose proof (step_spec st (OnFetch w (OnProgress loaded total)))
    as H.
  unfold kind_of in H. rewrite Hw, Hi in H. cbn zeta.
  set (st' := step _ _) in *. clearbody st'.
  inversion H; subst; simpl in *. by simplify_eq.
Qed.

(** C7.  With a progress callback, every progress event of a running
    transfer stores the event's counts in its task and calls the callback
    once, with [loaded] the sum of the [sizeLoaded] of all tasks as they then
    stand and [total] the frame's [totalSize].  Each size is what
    [getBinarySize] resolved with for that identifier and is never replaced;
    [totalSize] is the sum of the sizes of all identifiers, it is fixed once
    threads exist, and every call of the callback has passed that same
    value. *)
Theorem C7_aggregate_progress (arg : UrlArg) (nMax : Z) (cache : Caches)
    (evs : list Event) :
  let st := run (loadBinaryResource arg nMax true cache) evs in
  (∀ w i t loaded total,
     threads st !! w = Some (Awaiting i AwaitRequest) →
     tasks st !! i = Some t →
     let st' := step st (OnFetch w (OnProgress loaded total)) in
     tasks st' = alter (set_progress loaded total) i (tasks st)
     ∧ log st'
       = log st ++ [Progress (sumArr (map sizeLoaded (tasks st')))
                      (totalSize st)])
  ∧ (∀ a b,
       (a, b) ∈ progress_calls (log st) →
       ∃ sizes, sizeArr st = Some <$> sizes
                ∧ length sizes = length (urls_of arg)
                ∧ b = sumArr sizes)
  ∧ (∀ i pe size,
       call st = AwaitSizes → sizeArr st !! i = Some None →
       getBinarySize pe = Resolve size →
       sizeArr (step st (OnProbe i pe)) !! i = Some (Some size))
  ∧ (∀ i size evs',
       sizeArr st !! i = Some (Some size) →
       sizeArr (run st evs') !! i = Some (Some size))
  ∧ (∀ evs',
       threads st ≠ [] →
       totalSize (run st evs') = totalSize st
       ∧ sizeArr (run st evs') = sizeArr st).
Proof.
  intros st.
  pose proof (reachable_progress_inv arg nMax true cache evs) as Hinv.
  destruct (reachable_frame arg nMax true cache evs) as (Hrp & Hlen & _).
  fold st in Hinv, Hrp, Hlen. split_and!.
  - intros w i t loaded total Hw Hi.
    destruct (step_progress_event st w i t loaded total Hw Hi)
      as (H1 & H2 & H3 & _).
    cbn zeta in *. split; [exact H1|]. by rewrite H2, Hrp, H3.
  - intros a b Hab. destruct Hinv as [K0 K1 P1 P2].
    destruct (P2 a b Hab) as [-> Hne].
    destruct (K1 Hrp) as (sizes & Hs & Ht); [by right|].
    exists sizes. split_and!; [done| |done].
    rewrite <- Hlen, Hs by done. by rewrite length_fmap.
  - intros i pe size Hc Hi Hpe. simpl. unfold step_probe.
    rewrite Hc, Hi, Hpe.
    eapply (invariant_moves
      (λ s, sizeArr s !! i = Some (Some size)));
      [intros; by eapply trans_sizes_kept
      |apply quiet_moves, sizes_ready_quiet; by destruct st|].
    simpl. apply list_lookup_insert_eq. by eapply lookup_lt_Some.
  - intros i size evs' Hi.
    eapply (invariant_moves (λ s, sizeArr s !! i = Some (Some size)));
      [intros; by eapply trans_sizes_kept|apply run_moves|done].
  - intros evs' Hne. by apply moves_total_stable; [apply run_moves|..].
Qed.

Lemma C7_aggregate_progress_witness :
  let st :=
    run (loadBinaryResource (UrlList ["a"; "b"; "c"]%string) 2 true None)
      [OnProbe 0 (HeadersReceived (Some "10"%string));
       OnProbe 2 (HeadersReceived (Some "30"%string));
       OnProbe 1 (HeadersReceived (Some "20"%string));
       OnFetch 1 (OnProgress 5 20)] in
  let st' := step st (OnFetch 0 (OnProgress 4 10)) in
  map sizeLoaded (tasks st') = [Num 4; Num 5; Num 0]
  ∧ log st' = log st ++ [Progress (sumArr (map sizeLoaded (tasks st')))
                           (totalSize st)]
  ∧ progress_calls (log st') = [(Num 5, Num 60); (Num 9, Num 60)].
Proof.
  intros st st'.
  destruct (C7_aggregate_progress (UrlList ["a"; "b"; "c"]%string) 2 None
    [OnProbe 0 (HeadersReceived (Some "10"%string));
     OnProbe 2 (HeadersReceived (Some "30"%string));
     OnProbe 1 (HeadersReceived (Some "20"%string));
     OnFetch 1 (OnProgress 5 20)]) as (H & _).
  assert (Hw : threads st !! 0%nat = Some (Awaiting 0 AwaitRequest))
    by by vm_compute.
  assert (Hi : tasks st !! 0%nat = Some (mkTask "a" [] true (Num 0) (Num 0)))
    by by vm_compute.
  destruct (H 0%nat 0%nat _ 4%N 10%N Hw Hi) as [H1 H2].
  split_and!; [by vm_compute|exact H2|by vm_compute].
Defined.

(** *** The loaded count never goes down *)















End Progress.

(** ** The total declared by the transport *)

Section TransportTotal.

Lemma find_unstarted_erase ts :
  find_unstarted (erase_task <$> ts) = find_unstarted ts.
Proof.
  unfold find_unstarted. rewrite list_find_fmap.
  destruct (list_find (λ t, started t = false) ts) as [[i t]|] eqn:E.
  - apply list_find_Some in E.
    assert (list_find ((λ t, started t = false) ∘ erase_task) ts
            = Some (i, t)) as ->; [|done].
    by apply list_find_Some.
  - apply list_find_None in E.
    assert (list_find ((λ t, started t = false) ∘ erase_task) ts = None)
      as ->; [|done].
    by apply list_find_None.
Qed.

Lemma alter_erase (g g' : Task → Task) i (ts : list Task) :
  (∀ t, g (erase_task t) = erase_task (g' t)) →
  alter g i (erase_task <$> ts) = erase_task <$> alter g' i ts.
Proof.
  intros Hg. symmetry. apply list_fmap_alter. apply Forall_true.
  intros t. by rewrite Hg.
Qed.

Lemma sizeLoaded_erase (ts : list Task) :
  map sizeLoaded (erase_task <$> ts) = map sizeLoaded ts.
Proof. rewrite <- list_fmap_compose. by apply list_fmap_ext. Qed.

Lemma result_erase (ts : list Task) :
  map result (erase_task <$> ts) = map result ts.
Proof. rewrite <- list_fmap_compose. by apply list_fmap_ext. Qed.

Lemma final_value_erase ts : final_value (erase_task <$> ts) = final_value ts.
Proof.
  destruct ts as [|t [|t' ts]]; try done.
  change (Many (map result (erase_task <$> (t :: t' :: ts)))
          = Many (map result (t :: t' :: ts))).
  by rewrite result_erase.
Qed.

Lemma perform_erase i st eff :
  perform i (erase st) (erase_effect eff) = erase (perform i st eff).
Proof.
  destruct eff as [u|loaded total|u b]; try done.
  unfold perform, erase_effect.
  assert (Hts : alter (set_progress loaded 0) i (tasks (erase st))
                = erase_task <$> alter (set_progress loaded total) i (tasks st)).
  { by apply alter_erase. }
  rewrite Hts, sizeLoaded_erase.
  destruct st as [n [] ts tot sz ths c cl lg]; done.
Qed.

Lemma performs_erase i effs st :
  fold_left (perform i) (erase_effect <$> effs) (erase st)
  = erase (fold_left (perform i) effs st).
Proof.
  revert st. induction effs as [|eff effs IH]; intros st; [done|].
  csimpl. by rewrite perform_erase, IH.
Qed.

Lemma resume_erase c u cb f fe :
  _loadBinaryResource_resume c u cb f (erase_fetch_event fe)
  = let '(next, effs, c') := _loadBinaryResource_resume c u cb f fe in
    (next, erase_effect <$> effs, c').
Proof.
  destruct f, fe as [| | |[|]| |[]], c as [c|], cb; try done; simpl.
  by destruct (c !! u).
  by destruct (c !! u).
Qed.

Lemma runDownloadThread_erase w st :
  runDownloadThread w (erase st)
  = let '(st', thread) := runDownloadThread w st in (erase st', thread).
Proof.
  unfold runDownloadThread.
  change (tasks (erase st)) with (erase_task <$> tasks st).
  rewrite find_unstarted_erase.
  destruct (find_unstarted (tasks st)) as [j|]; [|done].
  rewrite list_lookup_fmap. destruct (tasks st !! j) as [t|]; [|done].
  simpl. rewrite (alter_erase set_started set_started) by done.
  destruct st as [n rp ts tot sz ths [c|] cl lg]; done.
Qed.

Lemma join_erase st : join (erase st) = erase (join st).
Proof.
  unfold join. change (tasks (erase st)) with (erase_task <$> tasks st).
  rewrite final_value_erase.
  destruct st as [n rp ts tot sz ths c [] lg]; try done. simpl.
  by destruct (forallb is_returned ths).
Qed.

Lemma fail_erase e st : fail e (erase st) = erase (fail e st).
Proof. by destruct st as [n rp ts tot sz ths c [] lg]. Qed.

Lemma spawn_loop_erase k st :
  spawn_loop k (erase st) = erase (spawn_loop k st).
Proof.
  revert st. induction k as [|k IH]; intros st; [done|]. simpl.
  rewrite runDownloadThread_erase.
  destruct (runDownloadThread (length (threads st)) st) as [st' thread].
  by rewrite <- IH.
Qed.

Lemma spawn_erase st : spawn (erase st) = erase (spawn st).
Proof.
  unfold spawn. rewrite <- join_erase. f_equal.
  by rewrite <- spawn_loop_erase.
Qed.

Lemma sizes_ready_erase st : sizes_ready (erase st) = erase (sizes_ready st).
Proof.
  unfold sizes_ready. change (sizeArr (erase st)) with (sizeArr st).
  destruct (mapM id (sizeArr st)); [|done]. by rewrite <- spawn_erase.
Qed.

Lemma resume_thread_erase w st :
  resume_thread w (erase st) = erase (resume_thread w st).
Proof.
  unfold resume_thread. rewrite runDownloadThread_erase.
  destruct (runDownloadThread w st) as [st' thread].
  by rewrite <- join_erase.
Qed.

Lemma step_erase st ev :
  step (erase st) (erase_event ev) = erase (step st ev).
Proof.
  destruct ev as [i pe|w fe]; simpl.
  - unfold step_probe.
    change (call (erase st)) with (call st).
    change (sizeArr (erase st)) with (sizeArr st).
    destruct (call st); try done.
    destruct (sizeArr st !! i) as [[|]|]; try done.
    destruct (getBinarySize pe); [|done]. by rewrite <- sizes_ready_erase.
  - unfold step_fetch.
    change (threads (erase st)) with (threads st).
    destruct (threads st !! w) as [[i f| |]|]; try done.
    change (tasks (erase st)) with (erase_task <$> tasks st).
    rewrite list_lookup_fmap. destruct (tasks st !! i) as [t|]; [|done].
    simpl. change (caches (erase st)) with (caches st).
    rewrite resume_erase.
    destruct (_loadBinaryResource_resume _ _ _ _ _) as [[next effs] c'].
    change (with_caches c' (erase st)) with (erase (with_caches c' st)).
    rewrite performs_erase.
    set (st1 := fold_left (perform i) effs (with_caches c' st)).
    destruct next as [f'|b|e].
    + done.
    + rewrite <- resume_thread_erase. f_equal.
      change (tasks (erase st1)) with (erase_task <$> tasks st1).
      rewrite (alter_erase (set_result b) (set_result b)) by done. done.
    + by rewrite <- fail_erase.
Qed.

Lemma run_erase st evs :
  run (erase st) (erase_event <$> evs) = erase (run st evs).
Proof.
  revert st. induction evs as [|ev evs IH]; intros st; [done|].
  csimpl. by rewrite step_erase, IH.
Qed.

(** C10.  Two runs of the same call whose events differ only in the
    totals carried by the progress events end with the same outcome of the
    call, the same calls of the aggregate callback (both arguments) and
    everything else that was observed, the same threads, and tasks that
    agree on every field but [sizeTotal]: in particular the same result
    buffers.  [sizeTotal] is the only thing the declared total reaches. *)
Theorem C10_transport_total_unobservable (arg : UrlArg) (nMax : Z)
    (cb : bool) (cache : Caches) (evs1 evs2 : list Event) :
  erase_event <$> evs1 = erase_event <$> evs2 →
  let st1 := run (loadBinaryResource arg nMax cb cache) evs1 in
  let st2 := run (loadBinaryResource arg nMax cb cache) evs2 in
  call st1 = call st2
  ∧ log st1 = log st2
  ∧ progress_calls (log st1) = progress_calls (log st2)
  ∧ map result (tasks st1) = map result (tasks st2)
  ∧ erase_task <$> tasks st1 = erase_task <$> tasks st2
  ∧ threads st1 = threads st2
  ∧ caches st1 = caches st2.
Proof.
  intros Hevs st1 st2.
  assert (He : erase st1 = erase st2).
  { unfold st1, st2. rewrite <- !run_erase, Hevs. done. }
  assert (Hts : erase_task <$> tasks st1 = erase_task <$> tasks st2).
  { change (tasks (erase st1) = tasks (erase st2)). by rewrite He. }
  assert (Hlg : log st1 = log st2).
  { change (log (erase st1) = log (erase st2)). by rewrite He. }
  split_and!; try done.
  - change (call (erase st1) = call (erase st2)). by rewrite He.
  - by rewrite Hlg.
  - by rewrite <- (result_erase (tasks st1)), Hts, result_erase.
  - change (threads (erase st1) = threads (erase st2)). by rewrite He.
  - change (caches (erase st1) = caches (erase st2)). by rewrite He.
Qed.

Lemma C10_transport_total_unobservable_witness :
  let evs1 :=
    [OnProbe 0 (HeadersReceived (Some "10"%string));
     OnFetch 0 (OnProgress 4 10); OnFetch 0 (OnProgress 10 10);
     OnFetch 0 (OnLoad (Some [x01]%byte))] in
  let evs2 :=
    [OnProbe 0 (HeadersReceived (Some "10"%string));
     OnFetch 0 (OnProgress 4 0); OnFetch 0 (OnProgress 10 999);
     OnFetch 0 (OnLoad (Some [x01]%byte))] in
  let st1 := run (loadBinaryResource (OneUrl "a") 1 true None) evs1 in
  let st2 := run (loadBinaryResource (OneUrl "a") 1 true None) evs2 in
  map sizeTotal (tasks st1) ≠ map sizeTotal (tasks st2)
  ∧ call st1 = call st2
  ∧ progress_calls (log st1) = progress_calls (log st2).
Proof.
  intros evs1 evs2 st1 st2.
  assert (He : erase_event <$> evs1 = erase_event <$> evs2) by by vm_compute.
  destruct (C10_transport_total_unobservable (OneUrl "a") 1 true None
              evs1 evs2 He) as (H1 & _ & H3 & _).
  split_and!; [by vm_compute|exact H1|exact H3].
Defined.

End TransportTotal.

(** ** A failing fetch *)

Section Failure.

Lemma perform_with_call c i st eff :
  perform i (with_call c st) eff = with_call c (perform i st eff).
Proof.
  destruct eff; try done. simpl. by destruct (reportProgress st).
Qed.

Lemma performs_with_call c i effs st :
  fold_left (perform i) effs (with_call c st)
  = with_call c (fold_left (perform i) effs st).
Proof.
  revert st. induction effs as [|eff effs IH]; intros st; [done|].
  simpl. by rewrite perform_with_call, IH.
Qed.

Lemma runDownloadThread_with_call c w st :
  runDownloadThread w (with_call c st)
  = let '(st', thread) := runDownloadThread w st in (with_call c st', thread).
Proof.
  unfold runDownloadThread. simpl.
  destruct (find_unstarted (tasks st)) as [j|]; [|done].
  destruct (tasks st !! j) as [t|]; [|done].
  by destruct (caches st).
Qed.

Lemma with_call_join c st : with_call c (join st) = with_call c st.
Proof.
  unfold join. destruct (call st); try done.
  by destruct (forallb is_returned (threads st)).
Qed.

Lemma with_call_fail c e st : with_call c (fail e st) = with_call c st.
Proof. unfold fail. by destruct (call st). Qed.

(** What a fetch event does to the tasks, the threads, the cache and the
    log does not depend on how the call itself stands. *)
Lemma step_fetch_with_call c c' w fe st :
  with_call c (step_fetch w fe (with_call c' st))
  = with_call c (step_fetch w fe st).
Proof.
  unfold step_fetch. simpl.
  destruct (threads st !! w) as [[i f| |]|]; try done.
  destruct (tasks st !! i) as [t|]; [|done].
  destruct (_loadBinaryResource_resume _ _ _ _ _) as [[next effs] c0].
  change (with_caches c0 (with_call c' st))
    with (with_call c' (with_caches c0 st)).
  rewrite performs_with_call.
  set (st1 := fold_left (perform i) effs (with_caches c0 st)).
  destruct next as [f'|b|e].
  - done.
  - unfold resume_thread.
    change (emit (Fetched i b)
              (with_tasks (alter (set_result b) i (tasks (with_call c' st1)))
                 (with_call c' st1)))
      with (with_call c'
              (emit (Fetched i b)
                 (with_tasks (alter (set_result b) i (tasks st1)) st1))).
    rewrite runDownloadThread_with_call.
    destruct (runDownloadThread w _) as [st' thread].
    by rewrite !with_call_join.
  - by rewrite !with_call_fail.
Qed.

Lemma trans_rejected k st st' e :
  trans k st st' → call st = Rejected e → call st' = Rejected e.
Proof. intros Ht. by inv_trans Ht. Qed.

Lemma trans_threw k st st' w e :
  trans k st st' →
  threads st !! w = Some (Threw e) → threads st' !! w = Some (Threw e).
Proof.
  intros Ht. inv_trans Ht; try done; intros Hw';
    try (by apply lookup_app_l_Some);
    (rewrite list_lookup_insert_ne; [done|]; intros ->; congruence).
Qed.

Lemma throwing_step st w i f t fe e :
  threads st !! w = Some (Awaiting i f) → tasks st !! i = Some t →
  (_loadBinaryResource_resume (caches st) (url t) true f fe).1.1 = Throws e →
  step st (OnFetch w fe)
  = fail e (with_threads (<[w := Threw e]> (threads st)) st).
Proof.
  intros Hw Hi He. simpl. unfold step_fetch. rewrite Hw, Hi.
  destruct st as [n rp ts tot sz ths c cl lg]. simpl in *.
  destruct f, fe as [|err|loaded total|[b|]|err|[]], c as [c|];
    simplify_eq/=; try done.
  by destruct (c !! url t).
Qed.

(** C1, as amended.  A fetch that fails is fatal to its own thread only:
    that thread ends with the error and stays so, while the tasks, the log
    and the other threads are as they were.  The call does not wait for the
    other threads: if it was waiting for the threads it is rejected by that
    very step, with that error, which remains its outcome; the rejection
    carries the error alone, no results.  What later fetch events do to the
    tasks, the threads, the cache and the log is the same as if the call had
    not been rejected: the other threads go on and write their results into
    their tasks. *)
Theorem C1_fetch_failure (st : State) (w i : nat) (f : Fetch) (t : Task)
    (fe : FetchEvent) (e : Error) :
  threads st !! w = Some (Awaiting i f) → tasks st !! i = Some t →
  (_loadBinaryResource_resume (caches st) (url t) true f fe).1.1 = Throws e →
  let st' := step st (OnFetch w fe) in
  threads st' = <[w := Threw e]> (threads st)
  ∧ tasks st' = tasks st ∧ log st' = log st
  ∧ (call st = AwaitThreads → call st' = Rejected e)
  ∧ (call st ≠ AwaitThreads → call st' = call st)
  ∧ (∀ evs,
       threads (run st' evs) !! w = Some (Threw e)
       ∧ (call st = AwaitThreads → call (run st' evs) = Rejected e))
  ∧ (∀ c w' fe',
       with_call c (step st' (OnFetch w' fe'))
       = with_call c (step (with_call AwaitThreads st') (OnFetch w' fe'))).
Proof.
  intros Hw Hi He st'.
  assert (Hst' : st' = fail e (with_threads (<[w := Threw e]> (threads st)) st))
    by by eapply throwing_step.
  assert (Hths : threads st' = <[w := Threw e]> (threads st)).
  { rewrite Hst'. by destruct (fail_fields e
      (with_threads (<[w := Threw e]> (threads st)) st)) as (_ & -> & _). }
  assert (Hc1 : call st = AwaitThreads → call st' = Rejected e).
  { intros Hc. rewrite Hst'. unfold fail. simpl. by rewrite Hc. }
  split_and!; try done.
  - rewrite Hst'. by destruct (fail_fields e
      (with_threads (<[w := Threw e]> (threads st)) st)) as (-> & _).
  - rewrite Hst'. by destruct (fail_fields e
      (with_threads (<[w := Threw e]> (threads st)) st)) as (_ & _ & -> & _).
  - intros Hc. rewrite Hst'. unfold fail. simpl.
    by destruct (call st) eqn:E; simpl; rewrite ?E.
  - intros evs. split.
    + eapply (invariant_moves (λ s, threads s !! w = Some (Threw e)));
        [intros; by eapply trans_threw|apply run_moves|].
      rewrite Hths. apply list_lookup_insert_eq. by eapply lookup_lt_Some.
    + intros Hc.
      eapply (invariant_moves (λ s, call s = Rejected e));
        [intros; by eapply trans_rejected|apply run_moves|by apply Hc1].
  - intros c w' fe'. simpl. by rewrite step_fetch_with_call.
Qed.

Lemma C1_fetch_failure_witness :
  let st := loadBinaryResource (UrlList ["a"; "b"]%string) 2 false None in
  let st' := step st (OnFetch 0 (OnError 7)) in
  threads st' = [Threw (PlatformError 7); Awaiting 1 AwaitRequest]
  ∧ call st' = Rejected (PlatformError 7)
  ∧ call (run st' [OnFetch 1 (OnLoad (Some [x0b]%byte))])
    = Rejected (PlatformError 7).
Proof.
  intros st.
  assert (Hw : threads st !! 0%nat = Some (Awaiting 0 AwaitRequest))
    by by vm_compute.
  assert (Hi : tasks st !! 0%nat = Some (mkTask "a" [] true (Num 0) (Num 0)))
    by by vm_compute.
  assert (He : (_loadBinaryResource_resume (caches st) "a" true AwaitRequest
                  (OnError 7)).1.1 = Throws (PlatformError 7))
    by by vm_compute.
  assert (Hc : call st = AwaitThreads) by by vm_compute.
  destruct (C1_fetch_failure st 0 0 AwaitRequest _ (OnError 7)
              (PlatformError 7) Hw Hi He) as (H1 & _ & _ & H4 & _ & H6 & _).
  split_and!; [exact H1|exact (H4 Hc)|].
  destruct (H6 [OnFetch 1 (OnLoad (Some [x0b]%byte))]) as [_ H]. exact (H Hc).
Defined.

(** C1 as stated fails: thread 0 fails and the call is rejected while
    thread 1 is still transferring; thread 1 then completes and stores its
    bytes in its task, but the call has already been rejected and hands the
    caller the error only. *)
Lemma C1_counterexample :
  let st0 := loadBinaryResource (UrlList ["a"; "b"]%string) 2 false None in
  let st1 := run st0 [OnFetch 0 (OnError 7)] in
  let st2 := run st1 [OnFetch 1 (OnLoad (Some [x0b]%byte))] in
  call st1 = Rejected (PlatformError 7)
  ∧ threads st1 = [Threw (PlatformError 7); Awaiting 1 AwaitRequest]
  ∧ threads st2 = [Threw (PlatformError 7); Returned]
  ∧ map result (tasks st2) = [[]; [x0b]%byte]
  ∧ call st2 = Rejected (PlatformError 7).
Proof. by vm_compute. Qed.

End Failure.

(** ** [joinBuffers] *)

Section JoinBuffers.

Lemma total_length (buffers : list Uint8Array) a :
  fold_left (λ acc buf, acc + length buf)%nat buffers a
  = (a + length (concat buffers))%nat.
Proof.
  revert a. induction buffers as [|b bs IH]; intros a; simpl; [lia|].
  rewrite IH, length_app. lia.
Qed.

Lemma set_Normal source offset output :
  (offset + length source ≤ length output)%nat →
  ∃ output', Uint8Array_set source offset output = Normal output'
             ∧ length output' = length output
             ∧ output' = take offset output ++ source
                         ++ drop (offset + length source) output.
Proof.
  intros H. unfold Uint8Array_set. rewrite decide_True by done.
  eexists. split_and!; [done| |done].
  rewrite !length_app, length_take, length_drop. lia.
Qed.

Lemma loop_Normal prev rest output :
  (length prev + length (concat rest) ≤ length output)%nat →
  ∃ output', joinBuffers_loop prev rest output = Normal output'
             ∧ length output' = length output.
Proof.
  revert prev output. induction rest as [|b rest IH]; intros prev output H.
  { by eexists. }
  simpl in *. rewrite length_app in H.
  destruct (set_Normal b (length prev) output) as (o1 & -> & Hl & _); [lia|].
  simpl. destruct (IH b o1) as (o2 & -> & Hl2); [lia|].
  exists o2. split; [done|lia].
Qed.

Lemma set_zero_from source offset output output' m :
  Uint8Array_set source offset output = Normal output' →
  zero_from m output →
  zero_from (m `max` (offset + length source)) output'.
Proof.
  unfold Uint8Array_set, zero_from, Uint8Array in *.
  case_decide as Hfit; [|done]. intros [= <-] Hz p.
  rewrite !length_app, length_take, length_drop. intros Hp.
  rewrite lookup_app_r by (rewrite length_take; lia).
  rewrite lookup_app_r by (rewrite length_take; lia).
  rewrite lookup_drop, length_take.
  replace (offset + length source
           + (p - offset `min` length output - length source))%nat
    with p by lia.
  apply Hz. lia.
Qed.

Lemma zero_from_mono m m' output :
  (m ≤ m')%nat → zero_from m output → zero_from m' output.
Proof. intros Hm Hz p Hp. apply Hz. lia. Qed.

Lemma loop_zero_from bound prev rest output output' :
  joinBuffers_loop prev rest output = Normal output' →
  writes_within bound prev rest → zero_from bound output →
  zero_from bound output'.
Proof.
  revert prev output. induction rest as [|b rest IH]; intros prev output.
  { by intros [= <-]. }
  simpl. destruct (Uint8Array_set b (length prev) output) as [o1|] eqn:E;
    [|done].
  simpl. intros Hloop [Hb Hw] Hz. eapply IH; [done..|].
  eapply zero_from_mono; [|by eapply set_zero_from]. lia.
Qed.

(** With some byte outside every pair of neighbours, no write reaches the
    last position.  [before] counts the bytes of the buffers before
    [prev]. *)
Lemma writes_within_nonempty (before : nat) prev rest :
  prev ≠ [] → Forall (λ b : Uint8Array, b ≠ []) rest →
  (1 ≤ before ∨ 2 ≤ length rest)%nat →
  writes_within (before + length prev + length (concat rest) - 1) prev rest.
Proof.
  revert before prev. induction rest as [|b rest IH]; intros before prev;
    [done|].
  intros Hprev [Hb Hrest]%Forall_cons Hpos. simpl. rewrite length_app. split.
  - destruct Hpos as [Hpos|Hpos]; [lia|].
    destruct rest as [|b' rest]; [simpl in Hpos; lia|].
    apply Forall_cons in Hrest as [Hb' _]. simpl. rewrite length_app.
    destruct b'; [done|]. simpl. lia.
  - replace (before + length prev + (length b + length (concat rest)) - 1)%nat
      with ((before + length prev) + length b + length (concat rest) - 1)%nat
      by lia.
    apply IH; [done..|]. left. destruct prev; [done|]. simpl. lia.
Qed.

Lemma set_empty output : Uint8Array_set [] 0 output = Normal output.
Proof.
  unfold Uint8Array_set. rewrite decide_True by (simpl; lia).
  by rewrite take_0, drop_0.
Qed.

Lemma loop_empties (pre rest : list Uint8Array) output :
  Forall (λ b, b = []) pre →
  joinBuffers_loop [] (pre ++ rest) output = joinBuffers_loop [] rest output.
Proof.
  induction 1 as [|b pre -> _ IH]; [done|].
  cbn [joinBuffers_loop app length]. by rewrite set_empty.
Qed.

Lemma concat_empties (pre : list Uint8Array) :
  Forall (λ b, b = []) pre → concat pre = [].
Proof. induction 1 as [|b pre -> _ IH]; [done|]. by simpl. Qed.

(** The first write at 0 and a second write right behind it, into zeros
    of the two lengths together, give the two buffers end to end. *)
Lemma two_writes (a b : list byte) :
  and_then (Uint8Array_set a 0 (replicate (length a + length b) x00))
    (joinBuffers_loop a [b])
  = Normal (a ++ b).
Proof.
  unfold joinBuffers_loop, Uint8Array_set. simpl.
  rewrite length_replicate, decide_True by lia. simpl.
  rewrite drop_replicate_add.
  rewrite length_app, length_replicate, decide_True by lia.
  rewrite take_app_length, drop_ge, app_nil_r; [done|].
  rewrite length_app, length_replicate. lia.
Qed.

Lemma one_write (a : list byte) :
  Uint8Array_set a 0 (replicate (length a) x00) = Normal a.
Proof.
  unfold Uint8Array_set. simpl.
  rewrite length_replicate, decide_True by lia. simpl.
  rewrite drop_replicate, Nat.sub_diag. simpl. by rewrite app_nil_r.
Qed.

Lemma joinBuffers_Normal (first : Uint8Array) (rest : list Uint8Array) :
  ∃ output, joinBuffers (first :: rest) = Normal output
            ∧ length output = length (concat (first :: rest)).
Proof.
  unfold joinBuffers. rewrite total_length. simpl.
  destruct (set_Normal first 0
              (replicate (length (first ++ concat rest)) x00))
    as (o1 & -> & Hl & _).
  { rewrite length_replicate, length_app. lia. }
  simpl. destruct (loop_Normal first rest o1) as (o2 & -> & Hl2).
  { rewrite Hl, length_replicate, length_app. lia. }
  exists o2. split; [done|]. by rewrite Hl2, Hl, length_replicate.
Qed.

(** X1.  [joinBuffers] throws a [TypeError] on the empty list and on no
    other input, never a [RangeError]; on a non-empty list it returns an
    array as long as all the buffers together. *)
Theorem joinBuffers_completes (buffers : list Uint8Array) :
  (joinBuffers buffers = Throw TypeError ↔ buffers = [])
  ∧ joinBuffers buffers ≠ Throw RangeError
  ∧ (buffers ≠ [] →
     ∃ output, joinBuffers buffers = Normal output
               ∧ length output = length (concat buffers)).
Proof.
  destruct buffers as [|first rest].
  { split_and!; done. }
  destruct (joinBuffers_Normal first rest) as (output & Ho & Hl).
  rewrite Ho. split_and!; try done.
  intros _. by exists output.
Qed.

Lemma joinBuffers_completes_witness :
  [[x01]; []; [x02; x03]]%byte ≠ []
  ∧ ∃ output,
      joinBuffers [[x01]; []; [x02; x03]]%byte = Normal output
      ∧ length output = 3%nat.
Proof.
  assert (Hne : [[x01]; []; [x02; x03]]%byte ≠ []) by done.
  split; [exact Hne|].
  destruct (joinBuffers_completes [[x01]; []; [x02; x03]]%byte)
    as (_ & _ & H).
  exact (H Hne).
Defined.

(** X2.  [joinBuffers] returns the concatenation when at most the last two
    buffers are non-empty: in particular for one buffer and for two. *)
Theorem joinBuffers_two (pre tail : list Uint8Array) :
  Forall (λ b, b = []) pre → tail ≠ [] → (length tail ≤ 2)%nat →
  joinBuffers (pre ++ tail) = Normal (concat (pre ++ tail)).
Proof.
  intros Hpre Hne Hlen. unfold joinBuffers.
  rewrite total_length, concat_app, (concat_empties pre Hpre).
  cbn [app plus].
  assert (Htail : ∀ output,
    output = replicate (length (concat tail)) x00 →
    joinBuffers_loop [] tail output = Normal (concat tail)).
  { intros output ->.
    destruct tail as [|a [|b [|c tail]]]; simpl in Hlen; try done; try lia.
    - cbn [joinBuffers_loop concat length]. rewrite app_nil_r.
      cbn [length]. by rewrite one_write.
    - cbn [joinBuffers_loop concat length]. rewrite app_nil_r, length_app.
      apply two_writes. }
  destruct Hpre as [|b pre -> Hpre].
  - destruct tail as [|a tail]; [done|]. cbn [app].
    change (and_then (Uint8Array_set a 0 ?o) (joinBuffers_loop a tail))
      with (joinBuffers_loop [] (a :: tail) o).
    by apply Htail.
  - cbn [app]. rewrite set_empty. cbn [and_then].
    rewrite loop_empties by done. by apply Htail.
Qed.

Lemma joinBuffers_two_witness :
  joinBuffers [[]; [x01; x02]; [x03]]%byte = Normal [x01; x02; x03]%byte.
Proof.
  apply (joinBuffers_two [[]] [[x01; x02]; [x03]]%byte).
  - by repeat constructor.
  - done.
  - simpl. lia.
Defined.

(** X3.  With three or more buffers, none of them empty, the last byte of
    the array [joinBuffers] returns is zero: buffer [i] is written at the
    length of buffer [i - 1], not behind everything written so far, so
    nothing reaches the end.  The result is then not the concatenation
    whenever the last buffer ends in a byte that is not zero. *)
Theorem joinBuffers_three (b0 b1 b2 : Uint8Array) (rest : list Uint8Array) :
  Forall (λ b : Uint8Array, b ≠ []) (b0 :: b1 :: b2 :: rest) →
  ∃ output,
    joinBuffers (b0 :: b1 :: b2 :: rest) = Normal output
    ∧ last output = Some x00
    ∧ (∀ x, last (concat (b0 :: b1 :: b2 :: rest)) = Some x → x ≠ x00 →
            output ≠ concat (b0 :: b1 :: b2 :: rest)).
Proof.
  intros Hne.
  destruct (joinBuffers_Normal b0 (b1 :: b2 :: rest)) as (output & Ho & Hl).
  exists output. split; [done|].
  assert (Hlast : last output = Some x00).
  { set (T := length (concat (b0 :: b1 :: b2 :: rest))) in *.
    assert (Hz : zero_from (T - 1) output).
    { unfold joinBuffers in Ho. rewrite total_length in Ho.
      fold T in Ho. rewrite Nat.add_0_l in Ho.
      destruct (Uint8Array_set b0 0 (replicate T x00)) as [o1|] eqn:E1;
        [|done].
      cbn [and_then] in Ho.
      apply Forall_cons in Hne as [H0 Hrest].
      eapply loop_zero_from; [exact Ho| |].
      - pose proof (writes_within_nonempty 0 b0 (b1 :: b2 :: rest) H0 Hrest)
          as Hw.
        unfold T. simpl in *. rewrite length_app. apply Hw. right. lia.
      - eapply zero_from_mono; [|eapply (set_zero_from _ _ _ _ 0); [exact E1|]].
        + unfold T. simpl. rewrite !length_app.
          apply Forall_cons in Hrest as [H1 _].
          destruct b1; [done|]. simpl. lia.
        + intros p Hp. apply lookup_replicate_2.
          rewrite length_replicate in Hp. lia. }
    rewrite last_lookup, Hl. apply Hz. rewrite Hl.
    assert (1 ≤ T)%nat; [|lia].
    unfold T. simpl. rewrite length_app.
    apply Forall_cons in Hne as [H0 _]. destruct b0; [done|]. simpl. lia. }
  split; [done|].
  intros x Hx Hx0 Heq. rewrite Heq in Hlast. congruence.
Qed.

Lemma joinBuffers_three_witness :
  ∃ output,
    joinBuffers [[x01]; [x02]; [x03]]%byte = Normal output
    ∧ last output = Some x00
    ∧ output ≠ [x01; x02; x03]%byte.
Proof.
  assert (Hne : Forall (λ b : Uint8Array, b ≠ [])
                  [[x01]; [x02]; [x03]]%byte) by by repeat constructor.
  destruct (joinBuffers_three [x01]%byte [x02]%byte [x03]%byte [] Hne)
    as (output & H1 & H2 & H3).
  exists output. split_and!; [exact H1|exact H2|].
  apply (H3 x03); done.
Defined.

End JoinBuffers.

(** ** [padDigits] *)

Section PadDigits.





















End PadDigits.

(** ** [sumArr] and the total with a missing size *)

Section Sums.

Lemma plus_assoc a b c : plus (plus a b) c = plus a (plus b c).
Proof. destruct a, b, c; simpl; try done. f_equal. lia. Qed.

Lemma plus_0_l a : plus (Num 0) a = a.
Proof. by destruct a. Qed.

Lemma sumArr_fold arr a :
  fold_left (λ prev curr, plus prev curr) arr a = plus a (sumArr arr).
Proof.
  unfold sumArr. revert a.
  induction arr as [|x arr IH]; intros a; cbn [fold_left].
  { destruct a; simpl; [done|]. f_equal. lia. }
  by rewrite (IH (plus a x)), (IH (plus (Num 0) x)), plus_0_l, plus_assoc.
Qed.

Lemma sumArr_cons x arr : sumArr (x :: arr) = plus x (sumArr arr).
Proof.
  unfold sumArr at 1. cbn [fold_left]. by rewrite sumArr_fold, plus_0_l.
Qed.

Lemma sumArr_NaN arr : sumArr arr = NaN ↔ NaN ∈ arr.
Proof.
  induction arr as [|x arr IH]; [by rewrite elem_of_nil|].
  rewrite sumArr_cons, elem_of_cons, <- IH.
  destruct x, (sumArr arr); simpl; split; try done; auto.
  by intros [|].
Qed.



(** X8. A response without a Content-Length header spoils the total: the
    probe resolves with [NaN] instead of rejecting, so once such a response
    has answered an awaited probe, every call of the progress callback, then
    and later, passes [NaN] as the total. *)
Theorem absent_header_total_NaN (arg : UrlArg) (nMax : Z) (cache : Caches)
    (evs evs' : list Event) (i : nat) (a b : number) :
  let st := run (loadBinaryResource arg nMax true cache) evs in
  call st = AwaitSizes → sizeArr st !! i = Some None →
  let st' := run st (OnProbe i (HeadersReceived None) :: evs') in
  (a, b) ∈ progress_calls (log st') → b = NaN.
Proof.
  intros st Hc Hi st' Hab.
  assert (Hsize : sizeArr st' !! i = Some (Some NaN)).
  { subst st'. simpl. unfold step_probe. rewrite Hc, Hi. simpl.
    eapply (invariant_moves (λ s, sizeArr s !! i = Some (Some NaN)));
      [intros; by eapply trans_sizes_kept|apply run_moves|].
    eapply (invariant_moves (λ s, sizeArr s !! i = Some (Some NaN)));
      [intros; by eapply trans_sizes_kept
      |apply quiet_moves, sizes_ready_quiet; by destruct st|].
    simpl. apply list_lookup_insert_eq. by eapply lookup_lt_Some. }
  assert (Hinv : progress_inv st').
  { subst st' st. unfold run. rewrite <- fold_left_app.
    apply reachable_progress_inv. }
  assert (Hrp : reportProgress st' = true).
  { subst st' st. unfold run. rewrite <- fold_left_app.
    by destruct (reachable_frame arg nMax true cache
                   (evs ++ OnProbe i (HeadersReceived None) :: evs'))
      as (? & _). }
  destruct Hinv as [_ K1 _ P2]. destruct (P2 a b Hab) as [-> Hne].
  destruct (K1 Hrp) as (sizes & Hs & ->); [by right|].
  apply sumArr_NaN. rewrite Hs, list_lookup_fmap in Hsize.
  destruct (sizes !! i) as [x|] eqn:E; simplify_eq/=.
  by eapply list_elem_of_lookup_2.
Qed.

Lemma absent_header_total_NaN_witness :
  let st' :=
    run (run (loadBinaryResource (UrlList ["a"; "b"]%string) 2 true None)
           [OnProbe 0 (HeadersReceived (Some "10"%string))])
      [OnProbe 1 (HeadersReceived None);
       OnFetch 0 (OnProgress 4 10)] in
  progress_calls (log st') = [(Num 4, NaN)].
Proof.
  intros st'.
  assert (Hlog : ∃ a b, progress_calls (log st') = [(a, b)] ∧ a = Num 4)
    by (by vm_compute; eauto).
  destruct Hlog as (a & b & Hlog & ->). rewrite Hlog. do 2 f_equal.
  apply (absent_header_total_NaN (UrlList ["a"; "b"]%string) 2 None
           [OnProbe 0 (HeadersReceived (Some "10"%string))]
           [OnFetch 0 (OnProgress 4 10)] 1%nat (Num 4) b);
    [reflexivity|reflexivity|].
  fold st'. rewrite Hlog. apply list_elem_of_here.
Defined.

End Sums.

(** ** After the call has settled *)

Section Settled.

Lemma step_resolved st ev v :
  call st = Resolved v → Forall (λ th, th = Returned) (threads st) →
  step st ev = st.
Proof.
  intros Hc Hall. destruct ev as [i pe|w fe]; simpl.
  - unfold step_probe. by rewrite Hc.
  - unfold step_fetch. destruct (threads st !! w) as [th|] eqn:E; [|done].
    rewrite Forall_lookup in Hall. by rewrite (Hall _ _ E).
Qed.

(** X9. The promise settles once.  When the call has resolved, every
    thread has returned and nothing is awaited any more: whatever event
    comes later leaves the whole frame as it is, so no task, result, cache
    entry or progress report changes after the caller has the value.  When it
    has rejected, it stays rejected with the same error. *)
Theorem settled_is_final (arg : UrlArg) (nMax : Z) (cb : bool)
    (cache : Caches) (evs evs' : list Event) :
  let st := run (loadBinaryResource arg nMax cb cache) evs in
  (∀ v, call st = Resolved v → run st evs' = st)
  ∧ (∀ e, call st = Rejected e → call (run st evs') = Rejected e).
Proof.
  intros st. split.
  - intros v Hv.
    destruct (reachable_result_inv arg nMax cb cache evs) as [_ _ Rj].
    fold st in Rj. destruct (Rj v Hv) as [Hall _].
    induction evs' as [|ev evs' IH]; [done|].
    simpl. by rewrite (step_resolved st ev v).
  - intros e He.
    eapply (invariant_moves (λ s, call s = Rejected e));
      [intros; by eapply trans_rejected|apply run_moves|done].
Qed.

Lemma settled_is_final_witness :
  let st :=
    run (loadBinaryResource (OneUrl "a") 1 false None)
      [OnFetch 0 (OnLoad (Some [x01]%byte))] in
  call st = Resolved (Single [x01]%byte)
  ∧ run st [OnFetch 0 (OnLoad (Some [x02]%byte)); OnFetch 0 (OnError 7)] = st.
Proof.
  intros st.
  assert (Hv : call st = Resolved (Single [x01]%byte)) by reflexivity.
  split; [exact Hv|].
  destruct (settled_is_final (OneUrl "a") 1 false None
              [OnFetch 0 (OnLoad (Some [x01]%byte))]
              [OnFetch 0 (OnLoad (Some [x02]%byte)); OnFetch 0 (OnError 7)])
    as [H _].
  exact (H _ Hv).
Defined.

End Settled.

(** ** Requests and stores *)

Section Traffic.

Lemma stores_app l k : stores (l ++ k) = stores l ++ stores k.
Proof. apply omap_app. Qed.

Lemma requests_start_log c w j :
  requests (start_log c w j) = match c with Some _ => [] | None => [j] end.
Proof. by destruct c. Qed.

Lemma stores_start_log c w j : stores (start_log c w j) = [].
Proof. by destruct c. Qed.

Lemma requests_fetched_start_log i b c w j :
  requests (Fetched i b :: start_log c w j)
  = match c with Some _ => [] | None => [j] end.
Proof. by destruct c. Qed.

Lemma stores_fetched_start_log i b c w j :
  stores (Fetched i b :: start_log c w j) = [].
Proof. by destruct c. Qed.

Lemma request_inv_update st st' rs ss :
  request_inv st →
  requests (log st') = requests (log st) ++ rs →
  stores (log st') = stores (log st) ++ ss →
  (∀ i, i ∈ claimed (log st) → i ∈ claimed (log st')) →
  NoDup rs → NoDup ss →
  (∀ i, i ∈ rs → i ∈ claimed (log st') ∧ i ∉ requests (log st)) →
  (∀ i, i ∈ ss → i ∈ (requests (log st) ++ rs) ∧ i ∉ stores (log st)) →
  (∀ w i, threads st' !! w = Some (Awaiting i AwaitCache) →
          i ∉ (requests (log st) ++ rs)) →
  (∀ w i, threads st' !! w = Some (Awaiting i AwaitRequest) →
          i ∈ (requests (log st) ++ rs) ∧ i ∉ (stores (log st) ++ ss)) →
  request_inv st'.
Proof.
  intros [I1 I2 I3 I4 I5 I6] HR HS HC Nr Ns Hrs Hss Hc Hq.
  constructor; rewrite ?HR, ?HS; try done.
  - apply NoDup_app. split_and!; [done| |done].
    intros i Hi Hi'. by destruct (Hrs i Hi').
  - apply NoDup_app. split_and!; [done| |done].
    intros i Hi Hi'. by destruct (Hss i Hi').
  - intros i [Hi|Hi]%elem_of_app; [auto|by destruct (Hrs i Hi)].
  - intros i [Hi|Hi]%elem_of_app; [apply elem_of_app; auto|].
    by destruct (Hss i Hi).
Qed.

(** Nothing requested or stored, and no thread newly waiting for a lookup
    or a request. *)
Lemma request_inv_same st st' :
  request_inv st →
  requests (log st') = requests (log st) →
  stores (log st') = stores (log st) →
  (∀ i, i ∈ claimed (log st) → i ∈ claimed (log st')) →
  (∀ w i f,
     threads st' !! w = Some (Awaiting i f) → f = AwaitCache ∨ f = AwaitRequest →
     ∃ w', threads st !! w' = Some (Awaiting i f)) →
  request_inv st'.
Proof.
  intros Hinv HR HS HC Hths.
  apply (request_inv_update st st' [] []); rewrite ?app_nil_r; try done.
  - constructor.
  - constructor.
  - intros i Hi. by apply elem_of_nil in Hi.
  - intros i Hi. by apply elem_of_nil in Hi.
  - intros w i Hw. destruct (Hths w i _ Hw) as [w' Hw']; [by left|].
    by eapply lookup_unsent.
  - intros w i Hw. destruct (Hths w i _ Hw) as [w' Hw']; [by right|].
    by eapply request_unstored.
Qed.

(** A thread claims [tasks[j]] and starts its fetch. *)
Lemma request_inv_claim st st' c j :
  request_inv st → j ∉ claimed (log st) →
  requests (log st')
  = requests (log st) ++ match c with Some _ => [] | None => [j] end →
  stores (log st') = stores (log st) →
  claimed (log st') = claimed (log st) ++ [j] →
  (∀ w i f,
     threads st' !! w = Some (Awaiting i f) →
     (i = j ∧ f = start_fetch c)
     ∨ (i ≠ j ∧ ∃ w', threads st !! w' = Some (Awaiting i f))) →
  request_inv st'.
Proof.
  intros Hinv Hj HR HS HC Hths.
  assert (HjR : j ∉ requests (log st)).
  { intros H. by apply Hj, (requests_claimed _ Hinv). }
  assert (HjS : j ∉ stores (log st)).
  { intros H. by apply HjR, (stores_requested _ Hinv). }
  apply (request_inv_update st st'
           (match c with Some _ => [] | None => [j] end) []);
    rewrite ?app_nil_r; try done.
  - intros i Hi. rewrite HC. apply elem_of_app. by left.
  - destruct c; [constructor|apply NoDup_singleton].
  - constructor.
  - intros i Hi. destruct c; [by apply elem_of_nil in Hi|].
    apply list_elem_of_singleton in Hi as ->. split; [|done].
    rewrite HC. apply elem_of_app. right. apply list_elem_of_here.
  - intros i Hi. by apply elem_of_nil in Hi.
  - intros w i Hw.
    destruct (Hths w i _ Hw) as [[-> Hf]|[Hne [w' Hw']]].
    + destruct c; [by rewrite app_nil_r|done].
    + intros [Hi|Hi]%elem_of_app.
      * by eapply (lookup_unsent _ Hinv).
      * destruct c; [by apply elem_of_nil in Hi|].
        by apply list_elem_of_singleton in Hi.
  - intros w i Hw.
    destruct (Hths w i _ Hw) as [[-> Hf]|[Hne [w' Hw']]].
    + split; [|done]. destruct c; [done|].
      apply elem_of_app. right. apply list_elem_of_here.
    + destruct (request_unstored _ Hinv w' i Hw') as [H1 H2].
      split; [|done]. apply elem_of_app. by left.
Qed.

Lemma lookup_insert_thread (ths : list Thread) w x w' y :
  (<[w := x]> ths) !! w' = Some y →
  (w' = w ∧ y = x) ∨ (w' ≠ w ∧ ths !! w' = Some y).
Proof.
  intros [(-> & -> & _)|[? ?]]%list_lookup_insert_Some; auto.
Qed.

Lemma trans_request_inv k st st' :
  trans k st st' → claim_inv st → request_inv st → request_inv st'.
Proof.
  intros Ht [Ihs Iho Ic1 Ic2 Irl] Hinv.
  assert (Hheld : ∀ w i f j,
    threads st !! w = Some (Awaiting i f) → ¬ started_at (tasks st) j → i ≠ j).
  { intros w i f j Hw Hj ->. apply Hj, (Ihs w). by exists f. }
  inv_trans Ht; try done.
  - (* a probe rejects *)
    by apply (request_inv_same _ _ Hinv); simpl; eauto.
  - (* a size arrives *)
    by apply (request_inv_same _ _ Hinv); simpl; eauto.
  - (* the threads are about to be spawned *)
    by apply (request_inv_same _ _ Hinv); simpl; eauto.
  - (* a thread is pushed with a claim *)
    destruct (find_unstarted_not_started _ _ Hfind) as [Hns _].
    apply (request_inv_claim _ _ c j Hinv); simpl.
    + by rewrite Ic2.
    + by rewrite requests_app, requests_start_log.
    + by rewrite stores_app, stores_start_log, app_nil_r.
    + by rewrite claimed_app, claimed_start_log.
    + intros w i f [[_ Hw]|[_ ?]]%lookup_snoc_Some; [|left; by simplify_eq].
      right. split; [by eapply Hheld|eauto].
  - (* a thread is pushed that finds nothing to claim *)
    apply (request_inv_same _ _ Hinv); simpl; try done.
    intros w i f [[_ Hw]|[_ ?]]%lookup_snoc_Some _; [eauto|done].
  - (* the call resolves *)
    by apply (request_inv_same _ _ Hinv); simpl; eauto.
  - (* a progress event *)
    apply (request_inv_same _ _ Hinv); simpl; [..|by eauto].
    + rewrite requests_app. destruct rp; simpl; by rewrite app_nil_r.
    + rewrite stores_app. destruct rp; simpl; by rewrite app_nil_r.
    + intros j Hj. rewrite claimed_app. apply elem_of_app. by left.
  - (* a fetch moves on *)
    assert (Hi_claimed : i ∈ claimed lg).
    { apply Ic2, (Ihs w). by exists f. }
    assert (Hsole : ∀ w' g, ths !! w' = Some (Awaiting i g) → w' = w).
    { intros w' g Hw'. apply (Iho w' w i); [by exists g|by exists f]. }
    inversion Hph; subst.
    + (* the lookup misses: the request is sent *)
      apply (request_inv_update _ _ [i] [] Hinv); simpl;
        rewrite ?requests_app, ?stores_app, ?claimed_app; simpl;
        rewrite ?app_nil_r; try done.
      * apply NoDup_singleton.
      * constructor.
      * intros j Hj. apply list_elem_of_singleton in Hj as ->.
        split; [done|]. by eapply (lookup_unsent _ Hinv).
      * intros j Hj. by apply elem_of_nil in Hj.
      * intros w' j [[-> ?]|[Hne Hw']]%lookup_insert_thread; [done|].
        intros [Hj|Hj]%elem_of_app.
        -- by eapply (lookup_unsent _ Hinv).
        -- apply list_elem_of_singleton in Hj as ->.
           by apply Hne, (Hsole _ AwaitCache).
      * intros w' j [[-> ?]|[Hne Hw']]%lookup_insert_thread.
        -- simplify_eq. split.
           ++ apply elem_of_app. right. apply list_elem_of_here.
           ++ intros Hs. eapply (lookup_unsent _ Hinv); [exact Hw|].
              by apply (stores_requested _ Hinv).
        -- destruct (request_unstored _ Hinv w' j Hw') as [H1 H2].
           split; [|done]. apply elem_of_app. by left.
    + (* the transfer is complete: the store starts *)
      destruct (request_unstored _ Hinv w i Hw) as [HiR HiS].
      apply (request_inv_update _ _ [] [i] Hinv); simpl;
        rewrite ?requests_app, ?stores_app, ?claimed_app; simpl;
        rewrite ?app_nil_r; try done.
      * constructor.
      * apply NoDup_singleton.
      * intros j Hj. by apply elem_of_nil in Hj.
      * intros j Hj. by apply list_elem_of_singleton in Hj as ->.
      * intros w' j [[-> ?]|[Hne Hw']]%lookup_insert_thread; [done|].
        by eapply (lookup_unsent _ Hinv).
      * intros w' j [[-> ?]|[Hne Hw']]%lookup_insert_thread; [done|].
        destruct (request_unstored _ Hinv w' j Hw') as [H1 H2].
        split; [done|].
        intros [Hj|Hj]%elem_of_app; [done|].
        apply list_elem_of_singleton in Hj as ->.
        by apply Hne, (Hsole _ AwaitRequest).
    + (* no body: the fetch is stuck *)
      apply (request_inv_same _ _ Hinv); simpl;
        rewrite ?app_nil_r; try done.
      intros w' j g [[-> ?]|[Hne Hw']]%lookup_insert_thread [?|?];
        simplify_eq; eauto.
    + (* the store failed: the fetch is stuck *)
      apply (request_inv_same _ _ Hinv); simpl;
        rewrite ?app_nil_r; try done.
      intros w' j g [[-> ?]|[Hne Hw']]%lookup_insert_thread [?|?];
        simplify_eq; eauto.
  - (* a fetch returns and its thread claims the next task *)
    destruct (find_unstarted_not_started _ _ Hfind) as [Hns _].
    rewrite started_at_alter_same in Hns by done.
    apply (request_inv_claim _ _ c' j Hinv); simpl.
    + by rewrite Ic2.
    + by rewrite requests_app, requests_fetched_start_log.
    + by rewrite stores_app, stores_fetched_start_log, app_nil_r.
    + by rewrite claimed_app, claimed_fetched_start_log.
    + intros w' i' g [[-> ?]|[Hne Hw']]%lookup_insert_thread.
      * left. by simplify_eq.
      * right. split; [by eapply Hheld|eauto].
  - (* a fetch returns and its thread finds nothing to claim *)
    apply (request_inv_same _ _ Hinv); simpl;
      rewrite ?requests_app, ?stores_app, ?claimed_app; simpl;
      rewrite ?app_nil_r; try done.
    intros w' j g [[-> ?]|[Hne Hw']]%lookup_insert_thread _; [done|eauto].
  - (* a fetch throws *)
    apply (request_inv_same _ _ Hinv); simpl; try done.
    intros w' j g [[-> ?]|[Hne Hw']]%lookup_insert_thread _; [done|eauto].
  - (* the call rejects *)
    by apply (request_inv_same _ _ Hinv); simpl; eauto.
Qed.

Lemma entry_request_inv arg nMax cb cache :
  request_inv (entry arg nMax cb cache).
Proof. constructor; simpl; try done; constructor. Qed.

Lemma reachable_request_inv arg nMax cb cache evs :
  request_inv (run (loadBinaryResource arg nMax cb cache) evs).
Proof.
  assert (H : claim_inv (run (loadBinaryResource arg nMax cb cache) evs)
              ∧ request_inv (run (loadBinaryResource arg nMax cb cache) evs));
    [|by destruct H].
  eapply (invariant_moves (λ s, claim_inv s ∧ request_inv s));
    [|apply reachable_moves
     |split; [apply entry_claim_inv|apply entry_request_inv]].
  intros k s s' Hs [H1 H2]. split; [by eapply trans_claim_inv|].
  by eapply trans_request_inv.
Qed.

(** X10. Whatever the events, every part is requested over the network at
    most once and handed to the cache at most once; a request goes out only
    for a part that was claimed, and a store starts only for a part that was
    requested.  No part is downloaded twice, however many threads run. *)
Theorem one_request_per_task (arg : UrlArg) (nMax : Z) (cb : bool)
    (cache : Caches) (evs : list Event) :
  let st := run (loadBinaryResource arg nMax cb cache) evs in
  NoDup (requests (log st)) ∧ NoDup (stores (log st))
  ∧ requests (log st) ⊆ claimed (log st)
  ∧ stores (log st) ⊆ requests (log st)
  ∧ (length (requests (log st)) ≤ length (urls_of arg))%nat.
Proof.
  intros st.
  destruct (reachable_request_inv arg nMax cb cache evs) as [I1 I2 I3 I4 _ _].
  destruct (reachable_claim_inv arg nMax cb cache evs) as [_ _ _ Ic2 _].
  destruct (reachable_frame arg nMax cb cache evs) as (_ & _ & Hlen).
  fold st in I1, I2, I3, I4, Ic2, Hlen.
  split_and!; [done..|].
  rewrite <- Hlen.
  assert (Hsub : requests (log st) ⊆ seq 0 (length (tasks st))).
  { intros i Hi. apply I3, Ic2 in Hi as (t & Ht & _).
    apply elem_of_seq. split; [lia|]. simpl. by eapply lookup_lt_Some. }
  etrans; [by apply submseteq_length, NoDup_submseteq|].
  by rewrite length_seq.
Qed.

End Traffic.

(** ** The results are assigned once *)

Section Assignment.

Lemma fetched_fetched_start_log i b c w j :
  fetched (Fetched i b :: start_log c w j) = [(i, b)].
Proof. by destruct c. Qed.

Lemma assign_inv_same st st' :
  assign_inv st →
  map result (tasks st') = map result (tasks st) →
  fetched (log st') = fetched (log st) →
  (∀ i, i ∈ claimed (log st) → i ∈ claimed (log st')) →
  assign_inv st'.
Proof.
  intros [A1 A2 A3] Hts Hlg Hcl. constructor; rewrite ?Hlg; auto.
  intros i t' Ht' Hi.
  assert (Hr : map result (tasks st') !! i = Some (result t')).
  { by rewrite list_lookup_fmap, Ht'. }
  rewrite Hts, list_lookup_fmap in Hr.
  destruct (tasks st !! i) as [t|] eqn:E; simplify_eq/=.
  rewrite <- Hr. by eapply A3.
Qed.

Lemma assign_inv_fetch st st' i b :
  assign_inv st → i ∈ claimed (log st) → i ∉ (fetched (log st)).*1 →
  map result (tasks st') = map result (alter (set_result b) i (tasks st)) →
  fetched (log st') = fetched (log st) ++ [(i, b)] →
  (∀ i, i ∈ claimed (log st) → i ∈ claimed (log st')) →
  assign_inv st'.
Proof.
  intros [A1 A2 A3] Hi Hni Hts Hlg Hcl.
  constructor; rewrite ?Hlg, ?fmap_app; simpl.
  - apply NoDup_app. split_and!; [done| |apply NoDup_singleton].
    intros j Hj Hj'. apply list_elem_of_singleton in Hj' as ->. done.
  - intros j [Hj|Hj]%elem_of_app; [auto|].
    apply list_elem_of_singleton in Hj as ->. auto.
  - intros j t' Ht' Hj. apply not_elem_of_app in Hj as [Hj Hne].
    rewrite list_elem_of_singleton in Hne.
    assert (Hr : map result (tasks st') !! j = Some (result t')).
    { by rewrite list_lookup_fmap, Ht'. }
    rewrite Hts, list_lookup_fmap, list_lookup_alter_ne in Hr by done.
    destruct (tasks st !! j) as [t|] eqn:E; simplify_eq/=.
    rewrite <- Hr. by eapply A3.
Qed.

Lemma trans_assign_inv k st st' :
  trans k st st' → claim_inv st → result_inv st → assign_inv st →
  assign_inv st'.
Proof.
  intros Ht [Ihs _ _ Ic2 _] [_ Rf _] Hinv.
  assert (Hheld : ∀ w i f,
    threads st !! w = Some (Awaiting i f) →
    i ∈ claimed (log st) ∧ i ∉ (fetched (log st)).*1).
  { intros w i f Hw. split.
    - apply Ic2, (Ihs w). by exists f.
    - intros [[i' b] [-> Hb]]%list_elem_of_fmap.
      destruct (Rf _ _ Hb) as [_ Hn]. apply (Hn w). by exists f. }
  assert (Hgrow : ∀ l k i, i ∈ claimed l → i ∈ claimed (l ++ k)).
  { intros l k' i Hi. rewrite claimed_app. apply elem_of_app. by left. }
  inv_trans Ht; try done;
    try (by apply (assign_inv_same _ _ Hinv); simpl;
           rewrite ?map_alter_same, ?fetched_app, ?fetched_start_log,
             ?app_nil_r; auto).
  - (* a progress event *)
    apply (assign_inv_same _ _ Hinv); simpl; auto.
    + by rewrite map_alter_same.
    + rewrite fetched_app. destruct rp; simpl; by rewrite app_nil_r.
  - (* a fetch moves on *)
    apply (assign_inv_same _ _ Hinv); simpl; auto.
    rewrite fetched_app. inversion Hph; simpl; by rewrite app_nil_r.
  - (* a fetch returns and its thread claims the next task *)
    destruct (Hheld _ _ _ Hw) as [H1 H2].
    apply (assign_inv_fetch _ _ i b Hinv); simpl; auto.
    + by rewrite map_alter_same.
    + by rewrite fetched_app, fetched_fetched_start_log.
  - (* a fetch returns and its thread finds nothing to claim *)
    destruct (Hheld _ _ _ Hw) as [H1 H2].
    apply (assign_inv_fetch _ _ i b Hinv); simpl; auto.
    by rewrite fetched_app.
Qed.

Lemma entry_assign_inv arg nMax cb cache :
  assign_inv (entry arg nMax cb cache).
Proof.
  constructor; simpl; [constructor|by intros i Hi%elem_of_nil|].
  intros i t Ht _. rewrite list_lookup_fmap in Ht.
  destruct (urls_of arg !! i); by simplify_eq/=.
Qed.

(** X11. A result is assigned to a task at most once, and only to a task
    that was claimed; a task whose fetch has not returned still holds the
    empty buffer it was created with.  So no buffer the caller may get is
    ever overwritten, and each one is either empty or the bytes one fetch
    returned. *)
Theorem results_assigned_once (arg : UrlArg) (nMax : Z) (cb : bool)
    (cache : Caches) (evs : list Event) :
  let st := run (loadBinaryResource arg nMax cb cache) evs in
  NoDup (fetched (log st)).*1
  ∧ (fetched (log st)).*1 ⊆ claimed (log st)
  ∧ (∀ i t,
       tasks st !! i = Some t →
       (result t = [] ∧ i ∉ (fetched (log st)).*1)
       ∨ (i, result t) ∈ fetched (log st)).
Proof.
  intros st.
  assert (H : (claim_inv st ∧ result_inv st) ∧ assign_inv st).
  { eapply (invariant_moves
      (λ s, (claim_inv s ∧ result_inv s) ∧ assign_inv s));
      [|apply reachable_moves
       |split_and!; [apply entry_claim_inv|apply entry_result_inv
                    |apply entry_assign_inv]].
    intros k s s' Hs [[H1 H2] H3]. split_and!.
    - by eapply trans_claim_inv.
    - by eapply trans_result_inv.
    - by eapply trans_assign_inv. }
  destruct H as [[_ [_ Rf _]] [A1 A2 A3]]. split_and!; [done..|].
  intros i t Ht.
  destruct (decide (i ∈ (fetched (log st)).*1)) as [Hi|Hi].
  - right. apply list_elem_of_fmap in Hi as [[i' b] [-> Hb]]. simpl in *.
    destruct (Rf _ _ Hb) as [(t' & Ht' & Hr & _) _]. simplify_eq. done.
  - left. split; [by eapply A3|done].
Qed.

Lemma results_assigned_once_witness :
  let st :=
    run (loadBinaryResource (UrlList ["a"; "b"]%string) 1 false None)
      [OnFetch 0 (OnLoad (Some [x01]%byte))] in
  ((0%nat, [x01]%byte) ∈ fetched (log st))
  ∧ 1%nat ∉ (fetched (log st)).*1.
Proof.
  intros st.
  destruct (results_assigned_once (UrlList ["a"; "b"]%string) 1 false None
              [OnFetch 0 (OnLoad (Some [x01]%byte))]) as (_ & _ & H).
  fold st in H.
  assert (H0 : tasks st !! 0%nat
               = Some (mkTask "a" [x01]%byte true (Num 0) (Num 0)))
    by reflexivity.
  assert (H1 : tasks st !! 1%nat = Some (mkTask "b" [] true (Num 0) (Num 0)))
    by reflexivity.
  split.
  - destruct (H _ _ H0) as [[Hr _]|Hf]; [done|exact Hf].
  - destruct (H _ _ H1) as [[_ Hn]|Hf]; [exact Hn|].
    simpl in Hf. apply list_elem_of_singleton in Hf. done.
Defined.

End Assignment.

(** ** The cache *)

Section Caching.

Lemma perform_caches i st eff : caches (perform i st eff) = caches st.
Proof. destruct eff; simpl; try done. by destruct (reportProgress st). Qed.

Lemma performs_caches i effs st :
  caches (fold_left (perform i) effs st) = caches st.
Proof.
  revert st. induction effs as [|eff effs IH]; intros st; simpl; [done|].
  by rewrite IH, perform_caches.
Qed.

Lemma runDownloadThread_caches w st :
  caches (runDownloadThread w st).1 = caches st.
Proof.
  destruct (find_unstarted (tasks st)) as [j|] eqn:E.
  - by rewrite (runDownloadThread_claim _ _ _ E).
  - by rewrite (runDownloadThread_idle _ _ E).
Qed.

Lemma spawn_loop_caches k st : caches (spawn_loop k st) = caches st.
Proof.
  revert st. induction k as [|k IH]; intros st; simpl; [done|].
  pose proof (runDownloadThread_caches (length (threads st)) st) as H.
  destruct (runDownloadThread _ st) as [st' th]. by rewrite IH.
Qed.

Lemma spawn_caches st : caches (spawn st) = caches st.
Proof.
  unfold spawn.
  destruct (join_fields
              (spawn_loop (Z.to_nat (nMaxParallel st))
                 (with_call AwaitThreads st))) as (_ & _ & _ & ->).
  by rewrite spawn_loop_caches.
Qed.

Lemma sizes_ready_caches st : caches (sizes_ready st) = caches st.
Proof.
  unfold sizes_ready. destruct (mapM id _); [|done]. by rewrite spawn_caches.
Qed.

Lemma loadBinaryResource_caches arg nMax cb cache :
  caches (loadBinaryResource arg nMax cb cache) = cache.
Proof.
  unfold loadBinaryResource.
  destruct cb; by rewrite ?sizes_ready_caches, ?spawn_caches.
Qed.

Lemma step_probe_caches i pe st : caches (step_probe i pe st) = caches st.
Proof.
  unfold step_probe. repeat case_match; try done.
  by rewrite sizes_ready_caches.
Qed.

Lemma step_fetch_caches w fe st i f t :
  threads st !! w = Some (Awaiting i f) → tasks st !! i = Some t →
  caches (step_fetch w fe st)
  = (_loadBinaryResource_resume (caches st) (url t) true f fe).2.
Proof.
  intros Hw Hi. unfold step_fetch. rewrite Hw, Hi.
  destruct (_loadBinaryResource_resume _ _ _ _ _) as [[next effs] c'].
  destruct next as [f'|b|e]; cbn [snd].
  - simpl. by rewrite performs_caches.
  - set (s2 := emit _ _).
    destruct (resume_thread_fields w s2) as (_ & _ & _ & ->).
    subst s2. simpl. by rewrite performs_caches.
  - set (s2 := with_threads _ _).
    destruct (fail_fields e s2) as (_ & _ & _ & ->).
    subst s2. simpl. by rewrite performs_caches.
Qed.

(** The only write to the cache: the store of a downloaded body has
    completed. *)
Lemma resume_caches c u cb f fe :
  (_loadBinaryResource_resume c u cb f fe).2 = c
  ∨ ∃ b, f = AwaitPut b ∧ fe = PutDone true
         ∧ (_loadBinaryResource_resume c u cb f fe).2
           = (λ m, <[u := b]> m) <$> c.
Proof.
  destruct f as [| |b|], fe as [|err|loaded total|[body|]|err|[]]; simpl;
    try (by left); try (by repeat case_match; left).
  right. by exists b.
Qed.

Lemma step_fetch_stored w st i t b :
  threads st !! w = Some (Awaiting i (AwaitPut b)) → tasks st !! i = Some t →
  (i, b) ∈ fetched (log (step_fetch w (PutDone true) st)).
Proof.
  intros Hw Hi. unfold step_fetch. rewrite Hw, Hi. simpl.
  set (s2 := emit _ _).
  destruct (resume_thread_fields w s2) as (_ & -> & _).
  subst s2. simpl. rewrite !fetched_app. simpl.
  apply elem_of_app. left. apply elem_of_app. right. apply list_elem_of_here.
Qed.

Lemma step_caches st ev :
  caches (step st ev) = caches st
  ∨ ∃ i t b,
      tasks st !! i = Some t
      ∧ caches (step st ev) = (λ m, <[url t := b]> m) <$> caches st
      ∧ (i, b) ∈ fetched (log (step st ev)).
Proof.
  destruct ev as [i pe|w fe]; simpl; [left; apply step_probe_caches|].
  destruct (threads st !! w) as [[i f| |e]|] eqn:Hw;
    try (left; unfold step_fetch; by rewrite Hw).
  destruct (tasks st !! i) as [t|] eqn:Hi;
    [|left; unfold step_fetch; by rewrite Hw, Hi].
  rewrite (step_fetch_caches w fe st i f t Hw Hi).
  destruct (resume_caches (caches st) (url t) true f fe)
    as [->|(b & -> & -> & ->)]; [by left|].
  right. exists i, t, b. split_and!; [done..|].
  by eapply step_fetch_stored.
Qed.

Lemma trans_fetched k st st' x :
  trans k st st' → x ∈ fetched (log st) → x ∈ fetched (log st').
Proof.
  intros Ht Hx. inv_trans Ht; try done;
    rewrite fetched_app; apply elem_of_app; by left.
Qed.

(** X12. The cache is written only by a completed store: at any time
    every entry is either one the cache had when the call was made or the
    bytes that the fetch of a part with that URL returned; an entry is never
    removed, and a browser without a cache never gets one. *)
Theorem cache_entries_origin (arg : UrlArg) (nMax : Z) (cb : bool)
    (cache : Caches) (evs : list Event) :
  let st := run (loadBinaryResource arg nMax cb cache) evs in
  (caches st = None ↔ cache = None)
  ∧ (∀ u, is_Some (cache ≫= (λ c, c !! u)) →
          is_Some (caches st ≫= (λ c, c !! u)))
  ∧ (∀ u b,
       caches st ≫= (λ c, c !! u) = Some b →
       cache ≫= (λ c, c !! u) = Some b
       ∨ ∃ i, urls_of arg !! i = Some u ∧ (i, b) ∈ fetched (log st)).
Proof.
  induction evs as [|ev evs IH] using rev_ind.
  { simpl. rewrite loadBinaryResource_caches. split_and!; auto. }
  unfold run in *. rewrite fold_left_app. simpl.
  set (st := fold_left step evs (loadBinaryResource arg nMax cb cache)) in *.
  cbn zeta in IH. destruct IH as (IH1 & IH2 & IH3).
  assert (Hmono : ∀ x, x ∈ fetched (log st) → x ∈ fetched (log (step st ev))).
  { intros x Hx.
    eapply (invariant_moves (λ s, x ∈ fetched (log s)));
      [intros; by eapply trans_fetched|apply step_moves|done]. }
  pose proof (reachable_urls arg nMax cb cache evs) as Hurls.
  unfold run in Hurls. fold st in Hurls.
  destruct (step_caches st ev) as [->|(i & t & b & Hi & -> & Hb)].
  - split_and!; [done..|].
    intros u b Hu. destruct (IH3 u b Hu) as [?|(i & ? & ?)]; [by left|].
    right. exists i. auto.
  - split_and!.
    + rewrite <- IH1. by destruct (caches st).
    + intros u Hu. specialize (IH2 u Hu).
      destruct (caches st) as [c|]; simpl in *; [|done].
      destruct (decide (u = url t)) as [->|Hne].
      * rewrite lookup_insert_eq. by eexists.
      * by rewrite lookup_insert_ne.
    + intros u b' Hu.
      destruct (caches st) as [c|] eqn:Hc; simpl in *; [|done].
      destruct (decide (u = url t)) as [->|Hne].
      * rewrite lookup_insert_eq in Hu. simplify_eq. right. exists i.
        split; [|done]. rewrite <- Hurls, list_lookup_fmap, Hi. done.
      * rewrite lookup_insert_ne in Hu by done.
        destruct (IH3 u b' Hu) as [?|(j & ? & ?)]; [by left|].
        right. exists j. auto.
Qed.

Lemma cache_entries_origin_witness :
  let st :=
    run (loadBinaryResource (OneUrl "a") 1 false (Some ∅))
      [OnFetch 0 CacheMatched; OnFetch 0 (OnLoad (Some [x01]%byte));
       OnFetch 0 (PutDone true)] in
  ∃ i, urls_of (OneUrl "a") !! i = Some "a"%string
       ∧ (i, [x01]%byte) ∈ fetched (log st).
Proof.
  intros st.
  destruct (cache_entries_origin (OneUrl "a") 1 false (Some ∅)
              [OnFetch 0 CacheMatched; OnFetch 0 (OnLoad (Some [x01]%byte));
               OnFetch 0 (PutDone true)]) as (_ & _ & H).
  fold st in H.
  assert (Hst : caches st ≫= (λ c, c !! "a"%string) = Some [x01]%byte)
    by (by vm_compute).
  destruct (H "a"%string [x01]%byte Hst) as [Hbad|Hi]; [|exact Hi].
  by vm_compute in Hbad.
Defined.

End Caching.

(** ** Two complete runs *)

Section Schedules.

Lemma spawn_loop_idle k st :
  find_unstarted (tasks st) = None →
  spawn_loop k st = with_threads (threads st ++ replicate k Returned) st.
Proof.
  revert st. induction k as [|k IH]; intros st Hst; simpl.
  { rewrite app_nil_r. by destruct st. }
  rewrite (runDownloadThread_idle _ _ Hst), IH by done.
  unfold with_threads. simpl. by rewrite <- app_assoc.
Qed.

Lemma forallb_returned k : forallb is_returned (replicate k Returned) = true.
Proof. by induction k. Qed.

(** One URL, at least one thread, no callback: thread 0 holds the task and
    the other threads have returned. *)
Lemma single_start u nMax cache :
  0 < nMax →
  loadBinaryResource (OneUrl u) nMax false cache
  = mkState nMax false [mkTask u [] true (Num 0) (Num 0)] (Num (-1)) []
      (Awaiting 0 (start_fetch cache) :: replicate (Z.to_nat nMax - 1) Returned)
      cache AwaitThreads (start_log cache 0 0).
Proof.
  intros HnM. unfold loadBinaryResource, spawn. cbn [urls_of map nMaxParallel].
  destruct (Z.to_nat nMax) as [|k] eqn:E; [lia|].
  cbn [spawn_loop].
  rewrite (runDownloadThread_claim _ _ 0%nat) by reflexivity.
  rewrite spawn_loop_idle by reflexivity.
  replace (S k - 1)%nat with k by lia.
  unfold join. simpl. by destruct cache.
Qed.

Lemma single_hit n rp u r a l tot sz k (c : gmap string Uint8Array) lg data :
  c !! u = Some data →
  step (mkState n rp [mkTask u r true a l] tot sz
          (Awaiting 0 AwaitCache :: replicate k Returned) (Some c)
          AwaitThreads lg)
       (OnFetch 0 CacheMatched)
  = mkState n rp [mkTask u data true a l] tot sz
      (Returned :: replicate k Returned) (Some c)
      (Resolved (Single data)) (lg ++ [Fetched 0 data]).
Proof.
  intros Hc. cbn [step]. unfold step_fetch.
  cbn [threads tasks lookup list_lookup url caches
       _loadBinaryResource_resume mbind option_bind].
  rewrite Hc. cbn [fold_left]. unfold resume_thread.
  rewrite runDownloadThread_idle by reflexivity.
  unfold join. simpl. by rewrite forallb_returned.
Qed.

Lemma single_miss n rp u r a l tot sz k (c : gmap string Uint8Array) lg :
  c !! u = None →
  step (mkState n rp [mkTask u r true a l] tot sz
          (Awaiting 0 AwaitCache :: replicate k Returned) (Some c)
          AwaitThreads lg)
       (OnFetch 0 CacheMatched)
  = mkState n rp [mkTask u r true a l] tot sz
      (Awaiting 0 AwaitRequest :: replicate k Returned) (Some c)
      AwaitThreads (lg ++ [Sent 0]).
Proof.
  intros Hc. cbn [step]. unfold step_fetch.
  cbn [threads tasks lookup list_lookup url caches
       _loadBinaryResource_resume mbind option_bind].
  by rewrite Hc.
Qed.

Lemma single_load n rp u r a l tot sz k (c : gmap string Uint8Array) lg b :
  step (mkState n rp [mkTask u r true a l] tot sz
          (Awaiting 0 AwaitRequest :: replicate k Returned) (Some c)
          AwaitThreads lg)
       (OnFetch 0 (OnLoad (Some b)))
  = mkState n rp [mkTask u r true a l] tot sz
      (Awaiting 0 (AwaitPut b) :: replicate k Returned) (Some c)
      AwaitThreads (lg ++ [Stored 0]).
Proof. reflexivity. Qed.

Lemma single_put n rp u r a l tot sz k (c : gmap string Uint8Array) lg b :
  step (mkState n rp [mkTask u r true a l] tot sz
          (Awaiting 0 (AwaitPut b) :: replicate k Returned) (Some c)
          AwaitThreads lg)
       (OnFetch 0 (PutDone true))
  = mkState n rp [mkTask u b true a l] tot sz
      (Returned :: replicate k Returned) (Some (<[u := b]> c))
      (Resolved (Single b)) (lg ++ [Fetched 0 b]).
Proof.
  cbn [step]. unfold step_fetch.
  cbn [threads tasks lookup list_lookup url caches
       _loadBinaryResource_resume fold_left fmap option_fmap option_map].
  unfold resume_thread.
  rewrite runDownloadThread_idle by reflexivity.
  unfold join. simpl. by rewrite forallb_returned.
Qed.

(** X13. What one call stores, the next call is served from the cache.
    A call for one URL that the cache does not hold looks it up, requests
    it once, stores the body and resolves with it; a later call for the same
    URL, made with the cache as the first call left it, resolves with the
    same bytes as soon as the lookup completes, without any request. *)
Theorem store_then_hit (u : string) (b : Uint8Array)
    (c : gmap string Uint8Array) (nMax nMax' : Z) :
  0 < nMax → 0 < nMax' → c !! u = None →
  let st1 :=
    run (loadBinaryResource (OneUrl u) nMax false (Some c))
      [OnFetch 0 CacheMatched; OnFetch 0 (OnLoad (Some b));
       OnFetch 0 (PutDone true)] in
  let st2 :=
    run (loadBinaryResource (OneUrl u) nMax' false (caches st1))
      [OnFetch 0 CacheMatched] in
  call st1 = Resolved (Single b) ∧ requests (log st1) = [0%nat]
  ∧ caches st1 = Some (<[u := b]> c)
  ∧ call st2 = Resolved (Single b) ∧ requests (log st2) = []
  ∧ caches st2 = caches st1.
Proof.
  intros HnM HnM' Hc st1 st2.
  assert (H1 : st1
    = mkState nMax false [mkTask u b true (Num 0) (Num 0)] (Num (-1)) []
        (Returned :: replicate (Z.to_nat nMax - 1) Returned)
        (Some (<[u := b]> c)) (Resolved (Single b))
        [Claimed 0 0; Sent 0; Stored 0; Fetched 0 b]).
  { subst st1. rewrite single_start by done. cbn [run fold_left start_fetch].
    by rewrite single_miss, single_load, single_put. }
  assert (H2 : st2
    = mkState nMax' false [mkTask u b true (Num 0) (Num 0)] (Num (-1)) []
        (Returned :: replicate (Z.to_nat nMax' - 1) Returned)
        (Some (<[u := b]> c)) (Resolved (Single b))
        [Claimed 0 0; Fetched 0 b]).
  { subst st2. rewrite H1. cbn [caches]. rewrite single_start by done.
    cbn [run fold_left start_fetch].
    by rewrite (single_hit _ _ _ _ _ _ _ _ _ _ _ b)
      by apply lookup_insert_eq. }
  rewrite H2, H1. by split_and!.
Qed.

Lemma store_then_hit_witness :
  let st1 :=
    run (loadBinaryResource (OneUrl "a") 2 false (Some ∅))
      [OnFetch 0 CacheMatched; OnFetch 0 (OnLoad (Some [x2a]%byte));
       OnFetch 0 (PutDone true)] in
  let st2 :=
    run (loadBinaryResource (OneUrl "a") 1 false (caches st1))
      [OnFetch 0 CacheMatched] in
  call st1 = Resolved (Single [x2a]%byte) ∧ requests (log st1) = [0%nat]
  ∧ caches st1 = Some (<["a"%string := [x2a]%byte]> ∅)
  ∧ call st2 = Resolved (Single [x2a]%byte) ∧ requests (log st2) = []
  ∧ caches st2 = caches st1.
Proof.
  assert (H1 : 0 < 2) by lia.
  assert (H2 : 0 < 1) by lia.
  assert (H3 : (∅ : gmap string Uint8Array) !! "a"%string = None)
    by apply lookup_empty.
  exact (store_then_hit "a" [x2a]%byte ∅ 2 1 H1 H2 H3).
Defined.

Lemma take_S_insert {A} (l : list A) k b :
  (k < length l)%nat → take (S k) (<[k := b]> l) = take k l ++ [b].
Proof.
  intros Hk. rewrite (take_S_r _ _ b) by by apply list_lookup_insert_eq.
  by rewrite take_insert_ge.
Qed.

(** One thread, no cache: the body of the task in hand arrives. *)
Lemma sequential_step st k t b :
  threads st = [Awaiting k AwaitRequest] → caches st = None →
  call st = AwaitThreads → tasks st !! k = Some t →
  (∀ i t', tasks st !! i = Some t' → started t' = bool_decide (i < S k)%nat) →
  let st' := step st (OnFetch 0 (OnLoad (Some b))) in
  caches st' = None
  ∧ map result (tasks st') = <[k := b]> (map result (tasks st))
  ∧ length (tasks st') = length (tasks st)
  ∧ if decide (S k < length (tasks st))%nat
    then threads st' = [Awaiting (S k) AwaitRequest] ∧ call st' = AwaitThreads
         ∧ (∀ i t', tasks st' !! i = Some t' →
                    started t' = bool_decide (i < S (S k))%nat)
    else threads st' = [Returned]
         ∧ call st' = Resolved (final_value (tasks st')).
Proof.
  destruct st as [n rp ts tot sz ths c cl lg]. simpl.
  intros -> -> -> Hk Hts. unfold step_fetch. simpl. rewrite Hk. simpl.
  set (ts1 := alter (set_result b) k ts).
  assert (Hts1 : ∀ i t', ts1 !! i = Some t' →
                         started t' = bool_decide (i < S k)%nat).
  { intros i t'. subst ts1. destruct (decide (k = i)) as [->|Hne].
    - rewrite list_lookup_alter_eq, Hk. intros; simplify_eq/=.
      by rewrite (Hts _ _ Hk).
    - rewrite list_lookup_alter_ne by done. apply Hts. }
  assert (Hres : map result ts1 = <[k := b]> (map result ts)).
  { subst ts1. apply list_eq. intros i.
    rewrite list_lookup_fmap. destruct (decide (k = i)) as [->|Hne].
    - rewrite list_lookup_alter_eq, Hk. simpl. symmetry.
      apply list_lookup_insert_eq. rewrite length_map.
      by eapply lookup_lt_Some.
    - rewrite list_lookup_alter_ne, list_lookup_insert_ne by done.
      by rewrite list_lookup_fmap. }
  assert (Hlen : length ts1 = length ts) by apply length_alter.
  unfold resume_thread.
  destruct (decide (S k < length ts)%nat) as [Hlt|Hge].
  - rewrite (runDownloadThread_claim _ _ (S k));
      [|apply find_unstarted_first; [simpl; lia|done]].
    unfold join. simpl. split_and!; [done|..].
    + by rewrite map_alter_same.
    + by rewrite length_alter.
    + done.
    + done.
    + intros i t'. destruct (decide (S k = i)) as [<-|Hne].
      * rewrite list_lookup_alter_eq. intros Hi.
        destruct (ts1 !! S k); simplify_eq/=.
        symmetry. apply bool_decide_eq_true. lia.
      * rewrite list_lookup_alter_ne by done. intros Hi.
        rewrite (Hts1 _ _ Hi). apply bool_decide_ext. lia.
  - rewrite runDownloadThread_idle.
    + unfold join. simpl. by split_and!.
    + apply find_unstarted_all_started. simpl. intros i t' Hi.
      rewrite (Hts1 _ _ Hi). apply bool_decide_eq_true.
      apply lookup_lt_Some in Hi. lia.
Qed.

Lemma sequential_run bs st k t :
  threads st = [Awaiting k AwaitRequest] → caches st = None →
  call st = AwaitThreads → tasks st !! k = Some t →
  (∀ i t', tasks st !! i = Some t' → started t' = bool_decide (i < S k)%nat) →
  length (tasks st) = (k + length bs)%nat →
  let st' := run st (map (λ b, OnFetch 0 (OnLoad (Some b))) bs) in
  call st' = Resolved (final_value (tasks st'))
  ∧ map result (tasks st') = take k (map result (tasks st)) ++ bs.
Proof.
  revert st k t. induction bs as [|b bs IH]; intros st k t Hths Hc Hcl Hk Hts Hlen.
  { apply lookup_lt_Some in Hk. simpl in Hlen. lia. }
  cbn zeta.
  change (run st (map (λ b, OnFetch 0 (OnLoad (Some b))) (b :: bs)))
    with (run (step st (OnFetch 0 (OnLoad (Some b))))
            (map (λ b, OnFetch 0 (OnLoad (Some b))) bs)).
  destruct (sequential_step st k t b Hths Hc Hcl Hk Hts)
    as (Hc1 & Hres & Hlen1 & Hnext).
  cbn zeta in *. set (st1 := step st (OnFetch 0 (OnLoad (Some b)))) in *.
  assert (Hklt : (k < length (map result (tasks st)))%nat).
  { rewrite length_map. by eapply lookup_lt_Some. }
  destruct (decide (S k < length (tasks st))%nat) as [Hlt|Hge].
  - destruct Hnext as (Hths1 & Hcl1 & Hts1).
    destruct (lookup_lt_is_Some_2 (tasks st1) (S k)) as [t1 Ht1]; [lia|].
    destruct (IH st1 (S k) t1) as [H1 H2]; try done.
    { simpl in Hlen. lia. }
    split; [done|]. rewrite H2, Hres, take_S_insert by done.
    by rewrite <- app_assoc.
  - destruct Hnext as (Hths1 & Hcl1).
    assert (bs = []) as ->.
    { apply nil_length_inv. simpl in Hlen. lia. }
    simpl. split; [done|].
    rewrite Hres, <- take_S_insert by done.
    rewrite take_ge; [done|]. rewrite length_insert, length_map. lia.
Qed.

(** X14. With one thread, no cache and no callback the parts are
    downloaded one after the other: when the body of the part in hand
    arrives as many times as there are URLs, the call has resolved, and the
    value holds those bodies in the order of the URLs. *)
Theorem sequential_download (arg : UrlArg) (bs : list Uint8Array) :
  length bs = length (urls_of arg) →
  let st :=
    run (loadBinaryResource arg 1 false None)
      (map (λ b, OnFetch 0 (OnLoad (Some b))) bs) in
  ∃ v, call st = Resolved v ∧ buffers v = bs.
Proof.
  intros Hlen st. subst st. unfold loadBinaryResource, spawn.
  destruct (urls_of arg) as [|u us] eqn:E.
  { apply nil_length_inv in Hlen as ->. by exists (Many []). }
  set (st0 :=
    mkState 1 false (set_started (new_task u) :: map new_task us) (Num (-1))
      [] [Awaiting 0 AwaitRequest] None AwaitThreads [Claimed 0 0; Sent 0]).
  change (join _) with st0.
  destruct (sequential_run bs st0 0 (set_started (new_task u))) as [H1 H2];
    try done.
  - intros [|i] t'; simpl; [by intros; simplify_eq|].
    rewrite list_lookup_fmap. intros Hi.
    destruct (us !! i); by simplify_eq/=.
  - simpl in *. rewrite length_map. lia.
  - eexists. split; [exact H1|]. by rewrite buffers_final_value, H2.
Qed.

Lemma sequential_download_witness :
  let st :=
    run (loadBinaryResource (UrlList ["a"; "b"; "c"]%string) 1 false None)
      (map (λ b, OnFetch 0 (OnLoad (Some b)))
           [[x01]; [x02; x03]; []]%byte) in
  ∃ v, call st = Resolved v ∧ buffers v = [[x01]; [x02; x03]; []]%byte.
Proof.
  exact (sequential_download (UrlList ["a"; "b"; "c"]%string)
           [[x01]; [x02; x03]; []]%byte eq_refl).
Defined.

End Schedules.

(** ** When the call resolves *)

Section Resolution.

Lemma join_pending st : pending_inv (join st).
Proof.
  unfold pending_inv, join. destruct (call st) eqn:E; simpl; try congruence.
  destruct (forallb is_returned (threads st)) eqn:F; simpl; congruence.
Qed.

Lemma sizes_ready_pending st : pending_inv st → pending_inv (sizes_ready st).
Proof.
  intros H. unfold sizes_ready. destruct (mapM id _); [|done].
  unfold spawn. apply join_pending.
Qed.

Lemma loadBinaryResource_pending arg nMax cb cache :
  pending_inv (loadBinaryResource arg nMax cb cache).
Proof.
  unfold loadBinaryResource.
  destruct cb; [|unfold spawn; apply join_pending].
  by apply sizes_ready_pending.
Qed.

Lemma performs_threads i effs st :
  threads (fold_left (perform i) effs st) = threads st.
Proof.
  revert st. induction effs as [|eff effs IH]; intros st; simpl; [done|].
  rewrite IH. destruct eff; simpl; try done. by destruct (reportProgress st).
Qed.

Lemma awaiting_not_returned (ths : list Thread) w i f :
  (w < length ths)%nat →
  forallb is_returned (<[w := Awaiting i f]> ths) = false.
Proof.
  intros Hw. destruct (forallb _ _) eqn:E; [|done].
  apply forallb_is_returned in E.
  edestruct (not_all_returned (<[w := Awaiting i f]> ths)); [|done].
  by apply list_lookup_insert_eq.
Qed.

Lemma step_pending st ev : pending_inv st → pending_inv (step st ev).
Proof.
  intros Hst. destruct ev as [i pe|w fe]; simpl.
  - unfold step_probe. destruct (call st) eqn:Hc; try done.
    destruct (sizeArr st !! i) as [[|]|]; try done.
    destruct (getBinarySize pe); [|done].
    apply sizes_ready_pending. unfold pending_inv. simpl. by rewrite Hc.
  - unfold step_fetch. destruct (threads st !! w) as [[i f| |]|] eqn:Hw;
      try done.
    destruct (tasks st !! i) as [t|]; [|done].
    destruct (_loadBinaryResource_resume _ _ _ _ _) as [[next effs] c'].
    destruct next as [f'|b|e].
    + intros _. simpl. rewrite performs_threads. simpl.
      apply awaiting_not_returned. by eapply lookup_lt_Some.
    + unfold resume_thread. destruct (runDownloadThread _ _) as [st' th].
      apply join_pending.
    + set (s2 := with_threads _ _). clearbody s2. unfold pending_inv, fail.
      destruct (call s2) eqn:Hc; simpl; congruence.
Qed.

Lemma Forall_returned ths :
  Forall (λ th, th = Returned) ths → forallb is_returned ths = true.
Proof. induction 1 as [|th ths -> _ IH]; [done|]. simpl. exact IH. Qed.

(** X15. The call resolves exactly with the last thread: at any time it
    has resolved if and only if the sizes are no longer awaited, it has not
    rejected and every thread has returned.  It never stays pending once the
    last thread has returned, and never resolves while a thread is suspended
    or has thrown. *)
Theorem resolves_with_last_thread (arg : UrlArg) (nMax : Z) (cb : bool)
    (cache : Caches) (evs : list Event) :
  let st := run (loadBinaryResource arg nMax cb cache) evs in
  (∃ v, call st = Resolved v)
  ↔ call st ≠ AwaitSizes ∧ (∀ e, call st ≠ Rejected e)
    ∧ Forall (λ th, th = Returned) (threads st).
Proof.
  intros st.
  assert (Hp : pending_inv st).
  { subst st. induction evs as [|ev evs IH] using rev_ind.
    - apply loadBinaryResource_pending.
    - unfold run. rewrite fold_left_app. simpl. by apply step_pending. }
  destruct (reachable_result_inv arg nMax cb cache evs) as [_ _ Rj].
  fold st in Rj. split.
  - intros [v Hv]. destruct (Rj v Hv) as [Hall _].
    rewrite Hv. by split_and!.
  - intros (H1 & H2 & Hall). destruct (call st) as [| |v|e] eqn:Hc.
    + done.
    + specialize (Hp Hc). by rewrite (Forall_returned _ Hall) in Hp.
    + by exists v.
    + by destruct (H2 e).
Qed.

Lemma resolves_with_last_thread_witness :
  let st :=
    run (loadBinaryResource (UrlList ["a"; "b"]%string) 2 false None)
      [OnFetch 1 (OnLoad (Some [x02]%byte));
       OnFetch 0 (OnLoad (Some [x01]%byte))] in
  ∃ v, call st = Resolved v.
Proof.
  intros st.
  apply (resolves_with_last_thread (UrlList ["a"; "b"]%string) 2 false None
           [OnFetch 1 (OnLoad (Some [x02]%byte));
            OnFetch 0 (OnLoad (Some [x01]%byte))]).
  split_and!; [by vm_compute|by vm_compute|].
  by repeat constructor.
Defined.

End Resolution.

(** ** Downloads in flight *)

Section Concurrency.

Lemma in_flight_held ths i :
  i ∈ in_flight ths ↔ ∃ w, held ths w i.
Proof.
  unfold in_flight. rewrite list_elem_of_omap. split.
  - intros (th & [w Hw]%list_elem_of_lookup & Hth).
    destruct th as [j f| |]; simplify_eq/=. exists w. by exists f.
  - intros (w & f & Hw). exists (Awaiting i f). split; [|done].
    by eapply list_elem_of_lookup_2.
Qed.

Lemma in_flight_NoDup ths :
  (∀ w w' i, held ths w i → held ths w' i → w = w') → NoDup (in_flight ths).
Proof.
  induction ths as [|th ths IH]; intros Hinj; [constructor|].
  assert (Htl : NoDup (in_flight ths)).
  { apply IH. intros w w' i [f Hw] [f' Hw'].
    assert (S w = S w') as [= ->]; [|done].
    apply (Hinj _ _ i); [by exists f|by exists f']. }
  destruct th as [i f| |]; try done.
  change (in_flight (Awaiting i f :: ths)) with (i :: in_flight ths).
  constructor; [|done]. intros (w & f' & Hw)%in_flight_held.
  assert (0%nat = S w) as [=].
  apply (Hinj _ _ i); [by exists f|by exists f'].
Qed.

Lemma in_flight_length ths : (length (in_flight ths) ≤ length ths)%nat.
Proof.
  induction ths as [|[] ths IH]; simpl; [done|..]; unfold in_flight in *;
    simpl; lia.
Qed.

(** X16. At any time the fetches under way are for distinct parts, all of
    them claimed, and there are at most [min(nMaxParallel, n)] of them (none
    when [nMaxParallel] is not positive): [nMaxParallel] bounds the number
    of simultaneous downloads. *)
Theorem bounded_concurrency (arg : UrlArg) (nMax : Z) (cb : bool)
    (cache : Caches) (evs : list Event) :
  let st := run (loadBinaryResource arg nMax cb cache) evs in
  NoDup (in_flight (threads st))
  ∧ in_flight (threads st) ⊆ claimed (log st)
  ∧ (length (in_flight (threads st))
     ≤ Z.to_nat nMax `min` length (urls_of arg))%nat.
Proof.
  intros st.
  destruct (reachable_claim_inv arg nMax cb cache evs) as [Ihs Iho _ Ic2 _].
  destruct (reachable_frame arg nMax cb cache evs) as (_ & _ & Hlen).
  destruct (run_spawn_count _ evs
              (loadBinaryResource_spawn_count arg nMax cb cache))
    as (_ & Hk & _).
  pose proof (moves_nMaxParallel _ _ (reachable_moves arg nMax cb cache evs))
    as HnM.
  simpl in HnM. fold st in Ihs, Iho, Ic2, Hlen, Hk, HnM. rewrite HnM in Hk.
  assert (Hnd : NoDup (in_flight (threads st))) by by apply in_flight_NoDup.
  split_and!; [done|..].
  - intros i (w & Hw)%in_flight_held. apply Ic2. by eapply Ihs.
  - apply Nat.min_glb.
    + destruct Hk as [Hk|Hk]; [rewrite Hk; simpl; lia|].
      rewrite <- Hk. apply in_flight_length.
    + rewrite <- Hlen.
      assert (Hsub : in_flight (threads st) ⊆ seq 0 (length (tasks st))).
      { intros i (w & Hw)%in_flight_held.
        destruct (Ihs _ _ Hw) as (t & Ht & _).
        apply elem_of_seq. split; [lia|]. simpl. by eapply lookup_lt_Some. }
      etrans; [by apply submseteq_length, NoDup_submseteq|].
      by rewrite length_seq.
Qed.

End Concurrency.

(** ** A transfer that ends without a body *)

Section EmptyResponse.



End EmptyResponse.

(** ** Parts that are never requested *)

Section Unrequested.

Lemma unrequested_same st st' :
  unrequested_idle st →
  (∀ i t', tasks st' !! i = Some t' →
           ∃ t, tasks st !! i = Some t ∧ sizeLoaded t' = sizeLoaded t
                ∧ sizeTotal t' = sizeTotal t) →
  (∀ i, i ∈ requests (log st) → i ∈ requests (log st')) →
  unrequested_idle st'.
Proof.
  intros Hst Hts Hlg i t' Hi Hn.
  destruct (Hts i t' Hi) as (t & Ht & -> & ->). apply (Hst i t Ht). auto.
Qed.

Lemma lookup_alter_counts (g : Task → Task) j (ts : list Task) i t' :
  (∀ x, sizeLoaded (g x) = sizeLoaded x ∧ sizeTotal (g x) = sizeTotal x) →
  alter g j ts !! i = Some t' →
  ∃ t, ts !! i = Some t ∧ sizeLoaded t' = sizeLoaded t
       ∧ sizeTotal t' = sizeTotal t.
Proof.
  intros Hg. destruct (decide (j = i)) as [->|Hne].
  - rewrite list_lookup_alter_eq. intros Hi.
    destruct (ts !! i) as [t|]; simplify_eq/=. exists t.
    by destruct (Hg t) as [-> ->].
  - rewrite list_lookup_alter_ne by done. eauto.
Qed.

Lemma trans_unrequested k st st' :
  trans k st st' → request_inv st → unrequested_idle st →
  unrequested_idle st'.
Proof.
  intros Ht Hreq Hinv.
  assert (Hgrow : ∀ l k' i, i ∈ requests l → i ∈ requests (l ++ k')).
  { intros l k' i Hi. rewrite requests_app. apply elem_of_app. by left. }
  inv_trans Ht; try done;
    try (by apply (unrequested_same _ _ Hinv); simpl; eauto).
  - (* a thread is pushed with a claim *)
    apply (unrequested_same _ _ Hinv); simpl; [|by auto].
    intros i x. by apply lookup_alter_counts.
  - (* a progress event *)
    intros j x Hj Hn. simpl in *.
    destruct (decide (i = j)) as [->|Hne].
    + destruct Hn. apply Hgrow.
      by destruct (request_unstored _ Hreq w j Hw).
    + rewrite list_lookup_alter_ne in Hj by done.
      apply (Hinv j x Hj). intros Hr. apply Hn. by apply Hgrow.
  - (* a fetch returns and its thread claims the next task *)
    apply (unrequested_same _ _ Hinv); simpl; [|by auto].
    intros i' x Hi'.
    apply lookup_alter_counts in Hi' as (t1 & Hi' & -> & ->); [|done].
    by apply lookup_alter_counts in Hi'.
  - (* a fetch returns and its thread finds nothing to claim *)
    apply (unrequested_same _ _ Hinv); simpl; [|by auto].
    intros i' x. by apply lookup_alter_counts.
Qed.

(** X18. Progress is counted only for parts that are requested: at any
    time a part for which no request has gone out, for instance one that is
    still waiting or was served from the cache, has [sizeLoaded] and
    [sizeTotal] 0, so it adds nothing to the [loaded] that is reported. *)
Theorem unrequested_parts_count_nothing (arg : UrlArg) (nMax : Z) (cb : bool)
    (cache : Caches) (evs : list Event) :
  let st := run (loadBinaryResource arg nMax cb cache) evs in
  ∀ i t,
    tasks st !! i = Some t → i ∉ requests (log st) →
    sizeLoaded t = Num 0 ∧ sizeTotal t = Num 0.
Proof.
  intros st.
  assert (H : (claim_inv st ∧ request_inv st) ∧ unrequested_idle st);
    [|by destruct H].
  eapply (invariant_moves
    (λ s, (claim_inv s ∧ request_inv s) ∧ unrequested_idle s));
    [|apply reachable_moves|].
  - intros k s s' Hs [[H1 H2] H3]. split_and!.
    + by eapply trans_claim_inv.
    + by eapply trans_request_inv.
    + by eapply trans_unrequested.
  - split_and!; [apply entry_claim_inv|apply entry_request_inv|].
    intros i t Hi _. simpl in Hi. rewrite list_lookup_fmap in Hi.
    destruct (urls_of arg !! i); by simplify_eq/=.
Qed.

Lemma unrequested_parts_count_nothing_witness :
  let st :=
    run (loadBinaryResource (UrlList ["x"; "y"]%string) 2 true
           (Some {[ "x"%string := [x01; x02]%byte ]}))
      [OnProbe 0 (HeadersReceived (Some "2"%string));
       OnProbe 1 (HeadersReceived (Some "3"%string));
       OnFetch 0 CacheMatched; OnFetch 1 CacheMatched;
       OnFetch 1 (OnProgress 3 3)] in
  map sizeLoaded (tasks st) = [Num 0; Num 3]
  ∧ ∃ t, tasks st !! 0%nat = Some t ∧ result t = [x01; x02]%byte
         ∧ sizeLoaded t = Num 0 ∧ sizeTotal t = Num 0.
Proof.
  intros st. split; [by vm_compute|].
  assert (Ht : ∃ t, tasks st !! 0%nat = Some t ∧ result t = [x01; x02]%byte)
    by (by vm_compute; eexists).
  destruct Ht as (t & Ht & Hr). exists t.
  assert (Hn : 0%nat ∉ requests (log st)).
  { assert (Hlog : requests (log st) = [1%nat]) by (by vm_compute).
    rewrite Hlog. by intros ?%list_elem_of_singleton. }
  split_and!; [exact Ht|exact Hr|..].
  all: by eapply (unrequested_parts_count_nothing
                    (UrlList ["x"; "y"]%string) 2 true
                    (Some {[ "x"%string := [x01; x02]%byte ]}) _ 0%nat t).
Defined.

End Unrequested.
